(* Latentis: the latent-space translation pipeline.

   Shallow embedding of
   - src/latentis/translate/translator.py (LatentTranslator: fit / forward),
   - src/tests/translate/test_manual_translate.py (manual_svd_translation and
     the reference implementation ManualLatentTranslation),
   together with the collaborators they call whose code is not part of the
   sources (latentis.transforms, latentis.estimate.orthogonal.SVDEstimator),
   modelled from the spec.

   Tensors are rectangular arrays with explicit shapes; a Python exception is
   the [Err] branch of [result], and a method that mutates [self] before it
   raises returns the mutated object together with the error. *)

From HB Require Import structures.
From mathcomp Require Import boot order algebra.
From Stdlib Require Import String.

Set Implicit Arguments.
Unset Strict Implicit.
Unset Printing Implicit Defensive.

Import GRing.Theory Num.Theory.
Local Open Scope ring_scope.

(** * Errors and results *)

Inductive error :=
  | AlreadyFitted   (* AssertionError: "Translator is already fitted." *)
  | NotFitted       (* a transform or estimator used before its fit *)
  | ShapeMismatch   (* torch RuntimeError on incompatible shapes *)
  | NotImplemented. (* NotImplementedError *)

Inductive result (A : Type) := Ok of A | Err of error.
Arguments Ok {A} _.
Arguments Err {A} _.

Definition is_ok A (r : result A) : bool := if r is Ok _ then true else false.

(** abs(a - b) on Python ints that are sizes. *)
Definition abs_diff (a b : nat) : nat := if (a < b)%N then (b - a)%N else (a - b)%N.

(** * Tensors *)

Section Tensors.
Variable R : numFieldType.

(** A 2D torch tensor: its shape and its entries. *)
Record tensor := Tensor { nrows : nat; ncols : nat; entry : nat -> nat -> R }.

Definition transpose (x : tensor) : tensor :=
  Tensor (ncols x) (nrows x) (fun i j => entry x j i).

(** x @ y (the caller checks the inner dimensions). *)
Definition matmul (x y : tensor) : tensor :=
  Tensor (nrows x) (ncols y)
    (fun i j => \sum_(k < ncols x) entry x i k * entry y k j).

(** torch.isclose(a, b, rtol=1e-05, atol=atol). *)
Definition isclose (atol a b : R) : bool :=
  `|a - b| <= atol + (100000%:R)^-1 * `|b|.

End Tensors.

Arguments Tensor {R} _ _ _.

(** * Transforms *)

Section Transforms.
Variable R : numFieldType.
(** The element-wise square root of the numeric library (torch.sqrt). *)
Variable sqrt : R -> R.

Local Notation tensor := (tensor R).

(** Per-column mean over axis 0. *)
Definition col_mean (x : tensor) (j : nat) : R :=
  (\sum_(i < nrows x) entry x i j) / (nrows x)%:R.

(** Per-column standard deviation over axis 0 (unbiased, as torch.std). *)
Definition col_std (x : tensor) (j : nat) : R :=
  let m := col_mean x j in
  sqrt ((\sum_(i < nrows x) (entry x i j - m) ^+ 2) / (nrows x).-1%:R).

(** L2 norm of row [i]. *)
Definition row_norm (x : tensor) (i : nat) : R :=
  sqrt (\sum_(j < ncols x) entry x i j ^+ 2).

(** Mean L2 norm of the rows. *)
Definition mean_row_norm (x : tensor) : R :=
  (\sum_(i < nrows x) row_norm x i) / (nrows x)%:R.

Definition map_entries (x : tensor) (f : nat -> R -> R) : tensor :=
  Tensor (nrows x) (ncols x) (fun i j => f j (entry x i j)).

(** Modelled from the spec: latentis.transforms (Centering, StandardScaling,
    L2, ZeroPadding; section 4.1 of the spec; STDScaling, the std-correction
    step of the equivalence scenario, section 6) is not part of the sources.
    Each constructor carries the transform's fitted state, [None] before
    [fit]; Centering, StandardScaling and STDScaling also record the width
    they were fitted on, so that applying them to another width is a shape
    error. ZeroPadding has nothing to fit. *)
Inductive transform :=
  | Centering of option (nat * (nat -> R))
  | StandardScaling of option (nat * (nat -> R) * (nat -> R))
  | L2 of option R
  | ZeroPadding of nat
  | STDScaling of option (nat * (nat -> R)).

(** The kind of a transform, forgetting its fitted state. *)
Inductive transform_kind :=
  | KCentering | KStandardScaling | KL2 | KZeroPadding of nat | KSTDScaling.

Definition kind_of (t : transform) : transform_kind :=
  match t with
  | Centering _ => KCentering
  | StandardScaling _ => KStandardScaling
  | L2 _ => KL2
  | ZeroPadding p => KZeroPadding p
  | STDScaling _ => KSTDScaling
  end.

(** Modelled from the spec: [Transform.fit]. A zero standard deviation is
    replaced by 1 (the policy the spec suggests for the degenerate case). *)
Definition t_fit (t : transform) (x : tensor) : transform :=
  match t with
  | Centering _ => Centering (Some (ncols x, col_mean x))
  | StandardScaling _ =>
      StandardScaling
        (Some (ncols x, col_mean x,
               fun j => let s := col_std x j in if s == 0 then 1 else s))
  | L2 _ => L2 (Some (mean_row_norm x))
  | ZeroPadding p => ZeroPadding p
  | STDScaling _ =>
      STDScaling
        (Some (ncols x, fun j => let s := col_std x j in if s == 0 then 1 else s))
  end.

(** Modelled from the spec: [Transform.__call__] (apply). L2 divides each
    row by its own norm and needs no fitted state; ZeroPadding appends [p]
    zero columns; STDScaling divides by the fitted std. *)
Definition t_apply (t : transform) (x : tensor) : result tensor :=
  match t with
  | Centering None | StandardScaling None | STDScaling None => Err NotFitted
  | Centering (Some (d, m)) =>
      if ncols x == d then Ok (map_entries x (fun j v => v - m j))
      else Err ShapeMismatch
  | StandardScaling (Some (d, m, s)) =>
      if ncols x == d then Ok (map_entries x (fun j v => (v - m j) / s j))
      else Err ShapeMismatch
  | L2 _ => Ok (Tensor (nrows x) (ncols x)
                       (fun i j => entry x i j / row_norm x i))
  | ZeroPadding p =>
      Ok (Tensor (nrows x) (ncols x + p)
                 (fun i j => if (j < ncols x)%N then entry x i j else 0))
  | STDScaling (Some (d, s)) =>
      if ncols x == d then Ok (map_entries x (fun j v => v / s j))
      else Err ShapeMismatch
  end.

(** Modelled from the spec: [Transform.reverse]. L2 multiplies by the
    fit-time mean norm; ZeroPadding drops the last [p] columns; STDScaling
    multiplies by the fitted std. *)
Definition t_reverse (t : transform) (x : tensor) : result tensor :=
  match t with
  | Centering None | StandardScaling None | L2 None | STDScaling None =>
      Err NotFitted
  | Centering (Some (d, m)) =>
      if ncols x == d then Ok (map_entries x (fun j v => v + m j))
      else Err ShapeMismatch
  | StandardScaling (Some (d, m, s)) =>
      if ncols x == d then Ok (map_entries x (fun j v => v * s j + m j))
      else Err ShapeMismatch
  | L2 (Some n) => Ok (map_entries x (fun _ v => v * n))
  | ZeroPadding p => Ok (Tensor (nrows x) (ncols x - p) (entry x))
  | STDScaling (Some (d, s)) =>
      if ncols x == d then Ok (map_entries x (fun j v => v * s j))
      else Err ShapeMismatch
  end.

(** [for transform in ts: x = transform(x)] *)
Fixpoint apply_chain (ts : seq transform) (x : tensor) : result tensor :=
  match ts with
  | [::] => Ok x
  | t :: ts' =>
      match t_apply t x with
      | Ok y => apply_chain ts' y
      | Err e => Err e
      end
  end.

(** [for transform in ts: x = transform.reverse(x=x)] *)
Fixpoint reverse_loop (ts : seq transform) (x : tensor) : result tensor :=
  match ts with
  | [::] => Ok x
  | t :: ts' =>
      match t_reverse t x with
      | Ok y => reverse_loop ts' y
      | Err e => Err e
      end
  end.

(** [for transform in ts: transform.fit(x); x = transform(x)]: the
    transforms are fitted in place, so the ones fitted before a failing
    step keep their new state. *)
Fixpoint fit_chain (ts : seq transform) (x : tensor)
  : seq transform * result tensor :=
  match ts with
  | [::] => ([::], Ok x)
  | t :: ts' =>
      let t' := t_fit t x in
      match t_apply t' x with
      | Ok y => let '(ts'', r) := fit_chain ts' y in (t' :: ts'', r)
      | Err e => (t' :: ts', Err e)
      end
  end.

(** The transforms that keep the number of columns (all but ZeroPadding). *)
Definition preserves_width (t : transform) : bool :=
  if t is ZeroPadding _ then false else true.

(** The width a fitted transform maps [d]-wide data to, when its fitted
    state is compatible with [d]. *)
Definition step_width (d : nat) (t : transform) : option nat :=
  match t with
  | Centering (Some (d', _)) | StandardScaling (Some (d', _, _))
  | STDScaling (Some (d', _)) =>
      if d == d' then Some d else None
  | L2 (Some _) => Some d
  | ZeroPadding p => Some (d + p)%N
  | _ => None
  end.

(** The same for a chain of fitted transforms. *)
Fixpoint chain_width (d : nat) (ts : seq transform) : option nat :=
  match ts with
  | [::] => Some d
  | t :: ts' => obind (fun d1 => chain_width d1 ts') (step_width d t)
  end.

End Transforms.

Arguments ZeroPadding {R} _.
Arguments Centering {R} _.
Arguments StandardScaling {R} _.
Arguments STDScaling {R} _.
Arguments L2 {R} _.
Arguments preserves_width {R} _.
Arguments chain_width {R} _ _.
Arguments step_width {R} _ _.
Arguments kind_of {R} _.

(** * LatentTranslator (src/latentis/translate/translator.py) *)

Section Translator.
Variable R : numFieldType.
Variable sqrt : R -> R.
(** The estimator object, the metadata its fit returns, and the state of
    the process-wide random generator. *)
Variables (E Info G : Type).
(** [seed_everything(seed)]: the generator state after seeding. *)
Variable seed_everything : nat -> G.
(** [estimator.fit(source_data=..., target_data=...)]: the fitted estimator
    and its metadata, or an error; it may draw from the generator. *)
Variable est_fit : E -> G -> tensor R -> tensor R -> result (E * Info) * G.
(** [estimator(x)]. *)
Variable est_apply : E -> tensor R -> result (tensor R).

Local Notation tensor := (tensor R).
Local Notation transform := (transform R).

Record translator := Translator {
  random_seed : nat;
  estimator : E;
  autopad : bool;
  fitted : bool;
  source_transforms : seq transform;
  target_transforms : seq transform;
  (* buffers "source_data" and "target_data" *)
  raw_data : option (tensor * tensor);
  (* buffers "transformed_source_data" and "transformed_target_data" *)
  transformed_data : option (tensor * tensor);
  translator_info : option Info }.

(** [LatentTranslator(random_seed, estimator, source_transforms,
    target_transforms, autopad)]. *)
Definition new_translator (seed : nat) (est : E)
    (sts tts : seq transform) (pad : bool) : translator :=
  Translator seed est pad false sts tts None None None.

(** Lines 68-76: fit the estimator on the transformed data, then register
    the transformed buffers and the metadata. *)
Definition estimate (t : translator) (g : G) (src' tgt' : tensor)
  : result Info * translator * G :=
  match est_fit (estimator t) g src' tgt' with
  | (Ok (e', info), g') =>
      (Ok info,
       Translator (random_seed t) e' (autopad t) (fitted t)
         (source_transforms t) (target_transforms t) (raw_data t)
         (Some (src', tgt')) (Some info),
       g')
  | (Err err, g') => (Err err, t, g')
  end.

(** [LatentTranslator.fit] (lines 42-76). *)
Definition fit (t : translator) (g : G) (src tgt : tensor)
  : result Info * translator * G :=
  if fitted t then (Err AlreadyFitted, t, g) else
  let g1 := seed_everything (random_seed t) in
  let pad_transform := ZeroPadding (abs_diff (ncols src) (ncols tgt)) in
  let sts := if (ncols src < ncols tgt)%N
             then rcons (source_transforms t) pad_transform
             else source_transforms t in
  let tts := if (ncols tgt < ncols src)%N
             then rcons (target_transforms t) pad_transform
             else target_transforms t in
  let mk sts' tts' :=
    Translator (random_seed t) (estimator t) (autopad t) true
      sts' tts' (Some (src, tgt)) None None in
  let '(sts', rs) := fit_chain sqrt sts src in
  match rs with
  | Err err => (Err err, mk sts' tts, g1)
  | Ok src' =>
      let '(tts', rt) := fit_chain sqrt tts tgt in
      match rt with
      | Err err => (Err err, mk sts' tts', g1)
      | Ok tgt' => estimate (mk sts' tts') g1 src' tgt'
      end
  end.

(** [LatentTranslator.forward] (lines 78-88): the "source" and "target"
    entries of the returned dict. *)
Definition forward (t : translator) (x : tensor) : result (tensor * tensor) :=
  match apply_chain sqrt (source_transforms t) x with
  | Err err => Err err
  | Ok source_x =>
      match est_apply (estimator t) source_x with
      | Err err => Err err
      | Ok target_x =>
          match reverse_loop (rev (target_transforms t)) target_x with
          | Err err => Err err
          | Ok target_x' => Ok (source_x, target_x')
          end
      end
  end.

End Translator.

Arguments new_translator {R E Info} _ _ _ _ _.

(** The [source_transforms] / [target_transforms] argument of
    [LatentTranslator.__init__]: None, a single Transform, or a sequence of
    Transforms. *)
Inductive transforms_arg (R : numFieldType) :=
  | NoTransforms
  | OneTransform of transform R
  | TransformSeq of seq (transform R).

Arguments NoTransforms {R}.

(** [nn.ModuleList(ts if isinstance(ts, Sequence) else [] if ts is None
    else [ts])] (lines 27-40). *)
Definition as_module_list R (a : transforms_arg R) : seq (transform R) :=
  match a with
  | TransformSeq ts => ts
  | NoTransforms => [::]
  | OneTransform t => [:: t]
  end.

(** [LatentTranslator.__init__] (lines 13-40) on its raw arguments. *)
Definition init_translator R E Info (random_seed : nat) (est : E)
    (sts tts : transforms_arg R) (autopad : bool) : translator R E Info :=
  new_translator random_seed est (as_module_list sts) (as_module_list tts)
    autopad.

Arguments init_translator {R E Info} _ _ _ _ _.

(** Two tensors of the same shape with the same entries. *)
Definition same_tensor R (x y : tensor R) : Prop :=
  nrows x = nrows y /\ ncols x = ncols y /\ forall i j, entry x i j = entry y i j.

(** * The SVD estimator *)

Section SVDEstimator.
Variable R : numFieldType.
(** torch.svd on a d x d matrix given by its entries: the entries of U, the
    singular values S and the entries of V, with M = U diag(S) V^T. *)
Variable svd : nat -> (nat -> nat -> R) ->
               (nat -> nat -> R) * (nat -> R) * (nat -> nat -> R).

Local Notation tensor := (tensor R).

(** Number of singular values not close to zero (atol 0.1). *)
Definition svd_rank (d : nat) (s : nat -> R) : nat :=
  count (fun i => ~~ isclose (10%:R)^-1 (s i) 0) (iota 0 d).

(** Modelled from the spec: latentis.estimate.orthogonal.SVDEstimator is
    not part of the sources (section 4.2 of the spec). [fit] requires
    inputs with the same number of rows and columns; it decomposes
    (target^T @ source)^T = U diag(S) V^T, keeps R = U V^T and returns the
    numerical rank as metadata. The estimator's state is its mapping R. *)
Definition svd_est_fit (e : option tensor) (src tgt : tensor)
  : result (option tensor * nat) :=
  if (nrows src != nrows tgt) || (ncols src != ncols tgt)
  then Err ShapeMismatch else
  let d := ncols src in
  let m := transpose (matmul (transpose tgt) src) in
  let '(u, s, v) := svd d (entry m) in
  Ok (Some (matmul (Tensor d d u) (transpose (Tensor d d v))), svd_rank d s).

(** Modelled from the spec: [SVDEstimator.__call__], x @ R. *)
Definition svd_est_apply (e : option tensor) (x : tensor) : result tensor :=
  match e with
  | None => Err NotFitted
  | Some r => if ncols x == nrows r then Ok (matmul x r) else Err ShapeMismatch
  end.

(** The estimator as the translator calls it; it draws nothing from the
    random generator. *)
Definition svd_estimator_fit (G : Type) (e : option tensor) (g : G)
    (src tgt : tensor) : result (option tensor * nat) * G :=
  (svd_est_fit e src tgt, g).

End SVDEstimator.

Arguments svd_estimator_fit {R} svd {G} _ _ _ _.

(** * The reference implementation (tests/translate/test_manual_translate.py) *)

Section Manual.
Variable R : numFieldType.
Variable sqrt : R -> R.
(** torch.svd on a square matrix M: U, the singular values S and V, with
    M = U diag(S) V^T (the third result is V, not V^T). *)
Variable svd : forall d, 'M[R]_d -> 'M[R]_d * 'rV[R]_d * 'M[R]_d.
(** torch.svd on a d1 x d2 matrix (reduced form, k = min(d1, d2)). *)
Variable svd_rect : forall d1 d2,
  'M[R]_(d1, d2) ->
  'M[R]_(d1, minn d1 d2) * 'rV[R]_(minn d1 d2) * 'M[R]_(d2, minn d1 d2).
(** torch.linalg.lstsq(A, B).solution *)
Variable lstsq : forall n d1 d2,
  'M[R]_(n, d1) -> 'M[R]_(n, d2) -> 'M[R]_(d1, d2).
(** The state of torch's global random generator; [nn.Linear(d1, d2)]
    draws its weight (d2 x d1) and bias from it. *)
Variable G : Type.
Variable linear_init : forall d1 d2, G -> ('M[R]_(d2, d1) * 'rV[R]_d2) * G.
(** The training loop of the "linear" method (300 Adam steps, lr 1e-3, MSE
    loss) from the given weight and bias; it draws nothing at random. *)
Variable adam_train : forall n d1 d2,
  'M[R]_(n, d1) -> 'M[R]_(n, d2) ->
  'M[R]_(d2, d1) * 'rV[R]_d2 -> 'M[R]_(d2, d1) * 'rV[R]_d2.

(** [manual_svd_translation(A, B)] (lines 14-19). The assertion
    [A.size(1) == B.size(1)] holds by the common width [d] of the types. *)
Definition manual_svd_translation n d (A B : 'M[R]_(n, d))
  : 'M[R]_d * 'rV[R]_d :=
  let '(u, s, vt) := svd ((B^T *m A)^T) in
  (u *m vt^T, s).

(** [(~sigma.isclose(torch.zeros_like(sigma), atol=1e-1)).sum()] *)
Definition sigma_rank_of d (s : 'rV[R]_d) : nat :=
  (\sum_(i < d) nat_of_bool (~~ isclose (10%:R)^-1 (s ord0 i) (0 : R)))%N.

Definition col_means n d (A : 'M[R]_(n, d)) : 'rV[R]_d :=
  \row_j ((\sum_i A i j) / n%:R).

(** [A.std(dim=(0,))], unbiased. *)
Definition col_stds n d (A : 'M[R]_(n, d)) : 'rV[R]_d :=
  let m := col_means A in
  \row_j sqrt ((\sum_i (A i j - m ord0 j) ^+ 2) / n.-1%:R).

Definition row_norm_mx n d (A : 'M[R]_(n, d)) (i : 'I_n) : R :=
  sqrt (\sum_j A i j ^+ 2).

(** [A.norm(p=2, dim=-1).mean()] *)
Definition mean_norm n d (A : 'M[R]_(n, d)) : R :=
  (\sum_i row_norm_mx A i) / n%:R.

(** [F.normalize(A, p=2, dim=-1)], eps = 1e-12. *)
Definition normalize_rows n d (A : 'M[R]_(n, d)) : 'M[R]_(n, d) :=
  \matrix_(i, j) (A i j / Num.max (row_norm_mx A i) (10%:R ^+ 12)^-1).

(** [(A - mean) / std]. Division is the field's, with x / 0 = 0, where
    torch gives inf or nan: statements that depend on the quotient assume
    nonzero stds. *)
Definition standardize n d (A : 'M[R]_(n, d)) (m s : 'rV[R]_d) : 'M[R]_(n, d) :=
  \matrix_(i, j) ((A i j - m ord0 j) / s ord0 j).

(** Zero-pad the columns up to width [m] (the [padded] tensors of the svd
    branch); the identity when the width is already [m]. *)
Definition pad_to n d m (A : 'M[R]_(n, d)) : 'M[R]_(n, m) :=
  \matrix_(i, j) (if (insub (val j) : option 'I_d) is Some k then A i k else 0).

(** The mapping [self.translation] set by [fit]. *)
Inductive translation d1 d2 :=
  | LinearMap of 'M[R]_(d2, d1) & 'rV[R]_d2     (* nn.Linear *)
  | SvdMap of 'M[R]_(maxn d1 d2)                (* x @ translation_matrix *)
  | LstsqMap of 'M[R]_(d1, d2).                 (* x @ translation_matrix *)

(** The buffers registered by [fit] before the method dispatch. *)
Record anchor_stats d1 d2 := AnchorStats {
  mean_encoding_anchors : 'rV[R]_d1;
  mean_decoding_anchors : 'rV[R]_d2;
  std_encoding_anchors : 'rV[R]_d1;
  std_decoding_anchors : 'rV[R]_d2;
  encoding_norm : R;
  decoding_norm : R }.

(** A [ManualLatentTranslation] fitted on d1-wide encoding anchors and
    d2-wide decoding anchors. *)
Record manual d1 d2 := Manual {
  seed : nat;
  centering : bool;
  std_correction : bool;
  l2_norm : bool;
  method : string;
  sigma_rank : option nat;
  stats : option (anchor_stats d1 d2);
  translation_of : option (translation d1 d2) }.

(** [ManualLatentTranslation(seed, centering, std_correction, l2_norm, method)] *)
Definition new_manual d1 d2 (sd : nat) (c s l : bool) (meth : string)
  : manual d1 d2 :=
  Manual sd c s l meth None None None.

Definition set_fitted d1 d2 (m : manual d1 d2) (st : anchor_stats d1 d2)
    (rank : option nat) (tr : option (translation d1 d2)) : manual d1 d2 :=
  Manual (seed m) (centering m) (std_correction m) (l2_norm m) (method m)
    rank (Some st) tr.

Definition set_seed d1 d2 (m : manual d1 d2) (sd : nat) : manual d1 d2 :=
  Manual sd (centering m) (std_correction m) (l2_norm m) (method m)
    (sigma_rank m) (stats m) (translation_of m).

(** Lines 44-75 of [ManualLatentTranslation.fit]: centering, std correction,
    the buffers, then the optional L2 normalisation. *)
Definition normalized_anchors n d1 d2 (m : manual d1 d2)
    (encoding_anchors : 'M[R]_(n, d1)) (decoding_anchors : 'M[R]_(n, d2))
  : 'M[R]_(n, d1) * 'M[R]_(n, d2) * anchor_stats d1 d2 :=
  let mean_enc := if centering m then col_means encoding_anchors else 0 in
  let mean_dec := if centering m then col_means decoding_anchors else 0 in
  let std_enc := if std_correction m then col_stds encoding_anchors
                 else const_mx 1 in
  let std_dec := if std_correction m then col_stds decoding_anchors
                 else const_mx 1 in
  let enc0 := standardize encoding_anchors mean_enc std_enc in
  let dec0 := standardize decoding_anchors mean_dec std_dec in
  let st := AnchorStats mean_enc mean_dec std_enc std_dec
                        (mean_norm enc0) (mean_norm dec0) in
  let enc := if l2_norm m then normalize_rows enc0 else enc0 in
  let dec := if l2_norm m then normalize_rows dec0 else dec0 in
  (enc, dec, st).

(** [ManualLatentTranslation.fit] (lines 42-117). The widths d1 and d2 are
    fixed by the type, so [encoding_dim] / [decoding_dim] (lines 59-60) are
    d1 and d2, and the attributes [encoding_anchors] / [decoding_anchors]
    (lines 105-106, set only when d1 > d2) are not part of the state: no
    other line reads them. *)
Definition manual_fit n d1 d2 (m : manual d1 d2) (g : G)
    (encoding_anchors : 'M[R]_(n, d1)) (decoding_anchors : 'M[R]_(n, d2))
  : result unit * manual d1 d2 * G :=
  if String.eqb (method m) "absolute" then (Ok tt, m, g) else
  let '(enc, dec, st) := normalized_anchors m encoding_anchors decoding_anchors in
  if String.eqb (method m) "linear" then
    let '(w, g') := linear_init d1 d2 g in
    let w' := adam_train enc dec w in
    (Ok tt, set_fitted m st None (Some (LinearMap w'.1 w'.2)), g')
  else if String.eqb (method m) "svd" then
    let '(r, sigma) := manual_svd_translation (pad_to (maxn d1 d2) enc)
                                              (pad_to (maxn d1 d2) dec) in
    (Ok tt, set_fitted m st (Some (sigma_rank_of sigma)) (Some (SvdMap r)), g)
  else if String.eqb (method m) "lstsq" then
    (Ok tt, set_fitted m st None (Some (LstsqMap (lstsq enc dec))), g)
  else if String.eqb (method m) "lstsq+ortho" then
    let '(u, _, vt) := svd_rect (lstsq enc dec) in
    (Ok tt, set_fitted m st None (Some (LstsqMap (u *m vt^T))), g)
  else (Err NotImplemented, set_fitted m st None None, g).

End Manual.

(** * [ManualLatentTranslation.transform] *)

Section ManualTransform.
Variable R : numFieldType.
Variable sqrt : R -> R.

(** The "source" and "target" entries of the dict [transform] returns. With
    the "absolute" method both are the input. With an SVD mapping the
    source is the encoded input zero-padded to max(d1, d2) columns (a no-op
    when d1 >= d2); otherwise it is the encoded input. *)
Inductive manual_output n d1 d2 :=
  | AbsoluteOut of 'M[R]_(n, d1)
  | SvdOut of 'M[R]_(n, maxn d1 d2) & 'M[R]_(n, d2)
  | PlainOut of 'M[R]_(n, d1) & 'M[R]_(n, d2).

(** The "target" entry of a call that mapped its input (not "absolute"). *)
Definition target_of n d1 d2 (r : result (manual_output n d1 d2))
  : option 'M[R]_(n, d2) :=
  match r with
  | Ok (SvdOut _ y) | Ok (PlainOut _ y) => Some y
  | _ => None
  end.

(** Lines 130-133: [(X - mean_encoding_anchors) / std_encoding_anchors],
    then [F.normalize] when [l2_norm]. *)
Definition encode_input n d1 d2 (m : manual R d1 d2)
    (st : anchor_stats R d1 d2) (X : 'M[R]_(n, d1)) : 'M[R]_(n, d1) :=
  let x := standardize X (mean_encoding_anchors st) (std_encoding_anchors st) in
  if l2_norm m then normalize_rows sqrt x else x.

(** Lines 144-149: [decoding_x * decoding_norm] when [l2_norm], then
    [decoding_x * std_decoding_anchors + mean_decoding_anchors]. *)
Definition restore n d1 d2 (m : manual R d1 d2) (st : anchor_stats R d1 d2)
    (y : 'M[R]_(n, d2)) : 'M[R]_(n, d2) :=
  let y' := if l2_norm m then decoding_norm st *: y else y in
  \matrix_(i, j) (y' i j * std_decoding_anchors st ord0 j
                  + mean_decoding_anchors st ord0 j).

(** [nn.Linear] with weight [w] (d2 x d1) and bias [b]: x w^T + b. *)
Definition linear_apply n d1 d2 (w : 'M[R]_(d2, d1)) (b : 'rV[R]_d2)
    (x : 'M[R]_(n, d1)) : 'M[R]_(n, d2) :=
  \matrix_(i, j) ((x *m w^T) i j + b ord0 j).

(** [ManualLatentTranslation.transform] (lines 126-155). Reading a buffer
    or [self.translation] that [fit] never set raises AttributeError, here
    [Err NotFitted]: the stats are registered by every [fit] that gets past
    "absolute", the mapping only by a successful one. An SVD mapping is
    only set by the "svd" branch of [fit], whose [transform] zero-pads the
    input to [decoding_dim] columns when [encoding_dim < decoding_dim]
    (lines 135-138); the result of [x @ translation_matrix] is then cut to
    its first [decoding_dim] columns (line 142), a no-op for the other
    mappings, which are already [decoding_dim] wide. *)
Definition manual_transform n d1 d2 (m : manual R d1 d2) (X : 'M[R]_(n, d1))
  : result (manual_output n d1 d2) :=
  if String.eqb (method m) "absolute" then Ok (AbsoluteOut d2 X) else
  match stats m with
  | None => Err NotFitted
  | Some st =>
      let x := encode_input m st X in
      match translation_of m with
      | None => Err NotFitted
      | Some (SvdMap r) =>
          let px := pad_to (maxn d1 d2) x in
          Ok (SvdOut px (restore m st (pad_to d2 (px *m r))))
      | Some (LstsqMap a) => Ok (PlainOut x (restore m st (x *m a)))
      | Some (LinearMap w b) =>
          Ok (PlainOut x (restore m st (linear_apply w b x)))
      end
  end.

End ManualTransform.

(** * The equivalence scenario ([test_manual_translation], lines 158-254) *)

Section Scenario.
Variable R : numFieldType.
Variable sqrt : R -> R.

(** The entries of a matrix as the entries of a tensor of the same shape. *)
Definition mx_entry n d (A : 'M[R]_(n, d)) (i j : nat) : R :=
  match insub i, insub j with
  | Some i', Some j' => A i' j'
  | _, _ => 0
  end.

(** The batch [space.vectors] handed to both implementations. *)
Definition tensor_of_mx n d (A : 'M[R]_(n, d)) : tensor R :=
  Tensor n d (mx_entry A).

(** A tensor holds a matrix: same shape, same entries inside the shape. *)
Definition holds n d (x : tensor R) (A : 'M[R]_(n, d)) : Prop :=
  nrows x = n /\ ncols x = d /\
  forall (i : 'I_n) (j : 'I_d), entry x i j = A i j.

(** The same torch.svd, as the SVD estimator calls it on entries. *)
Definition svd_entries (svd : forall d, 'M[R]_d -> 'M[R]_d * 'rV[R]_d * 'M[R]_d)
    (d : nat) (f : nat -> nat -> R)
  : (nat -> nat -> R) * (nat -> R) * (nat -> nat -> R) :=
  let '(u, s, v) := svd d (\matrix_(i, j) f i j) in
  (mx_entry u, mx_entry s 0, mx_entry v).

(** The five entries of [eq_methods] (lines 158-237), in order. *)
Inductive eq_method :=
  | CenterSTD | Standard | CenterL2 | OnlyL2 | OnlyCenter.

(** [ManualLatentTranslation(seed=0, centering, std_correction, l2_norm,
    method="svd")] *)
Definition manual_of (p : eq_method) (d : nat) : manual R d d :=
  match p with
  | CenterSTD | Standard => new_manual R d d 0 true true false "svd"
  | CenterL2 => new_manual R d d 0 true false true "svd"
  | OnlyL2 => new_manual R d d 0 false false true "svd"
  | OnlyCenter => new_manual R d d 0 true false false "svd"
  end.

(** The [source_transforms] (and equal [target_transforms]) lists. *)
Definition transforms_of (p : eq_method) : seq (transform R) :=
  match p with
  | CenterSTD => [:: Centering None; STDScaling None]
  | Standard => [:: StandardScaling None]
  | CenterL2 => [:: Centering None; L2 None]
  | OnlyL2 => [:: L2 None]
  | OnlyCenter => [:: Centering None]
  end.

(** [LatentTranslator(random_seed=0, estimator=SVDEstimator(), ...)] *)
Definition translator_of (p : eq_method) : translator R (option (tensor R)) nat :=
  init_translator 0 None (TransformSeq (transforms_of p))
    (TransformSeq (transforms_of p)) true.

(** Anchors on which torch computes what the exact model computes: with
    std correction the per-column stds are nonzero (torch divides by
    them) ... *)
Definition std_nonzero n d (m : manual R d d) (X : 'M[R]_(n, d)) : Prop :=
  std_correction m -> forall j, col_stds sqrt X ord0 j != 0.

(** ... and with L2 normalisation the rows, once centred and scaled, have a
    norm of at least F.normalize's eps = 1e-12, below which F.normalize
    divides by eps instead of the norm. *)
Definition norms_above_eps n d (m : manual R d d) (X : 'M[R]_(n, d)) : Prop :=
  l2_norm m ->
  forall i, (10%:R ^+ 12)^-1 <=
    row_norm_mx sqrt
      (standardize X (if centering m then col_means X else 0)
         (if std_correction m then col_stds sqrt X else const_mx 1)) i.

End Scenario.

Arguments svd_entries {R} svd _ _.

(** * Small concrete inputs, over the rationals *)

(** A square root on the rationals (Newton iteration from 1), standing for
    the floating-point torch.sqrt when the model is run on examples. *)
Definition rat_sqrt (x : rat) : rat :=
  iter 8 (fun y => (y + x / y) / 2%:R) 1.

(** torch.svd on tensors of the form diag(s) with s >= 0: U = V = I. *)
Definition diag_svd (d : nat) (m : nat -> nat -> rat)
  : (nat -> nat -> rat) * (nat -> rat) * (nat -> nat -> rat) :=
  (fun i j => if i == j then 1 else 0, fun i => m i i,
   fun i j => if i == j then 1 else 0).

(** The same on matrices. *)
Definition diag_svd_mx (d : nat) (m : 'M[rat]_d) : 'M[rat]_d * 'rV[rat]_d * 'M[rat]_d :=
  (1%:M, \row_i m i i, 1%:M).

Definition zeros (n d : nat) : tensor rat := Tensor n d (fun _ _ => 0).

Definition eye (d : nat) : tensor rat :=
  Tensor d d (fun i j => if i == j then 1 else 0).

(** Anchor statistics of a model fitted without centering or scaling. *)
Definition unit_stats (d1 d2 : nat) : anchor_stats rat d1 d2 :=
  AnchorStats 0 0 (const_mx 1) (const_mx 1) 1 1.

(** * Facts about the transform chains *)

Section TransformFacts.
Variable R : numFieldType.
Variable sqrt : R -> R.
Local Notation tensor := (tensor R).
Local Notation transform := (transform R).

Lemma fit_chain_cat (ts1 ts2 : seq transform) (x : tensor) :
  fit_chain sqrt (ts1 ++ ts2) x =
  let '(ts1', r) := fit_chain sqrt ts1 x in
  match r with
  | Ok y => let '(ts2', r2) := fit_chain sqrt ts2 y in (ts1' ++ ts2', r2)
  | Err e => (ts1' ++ ts2, Err e)
  end.
Proof.
elim: ts1 x => [|t ts1 IH] x /=.
  by case: (fit_chain sqrt ts2 x).
case: (t_apply sqrt (t_fit sqrt t x) x) => [y|e] //.
rewrite IH; case: (fit_chain sqrt ts1 y) => ts1' [z|e] //=.
by case: (fit_chain sqrt ts2 z).
Qed.

Lemma chain_width_cons (d : nat) (t : transform) (ts : seq transform) :
  chain_width d (t :: ts) = obind (fun d1 => chain_width d1 ts) (step_width d t).
Proof. by []. Qed.

Lemma chain_width_cat (d : nat) (ts1 ts2 : seq transform) :
  chain_width d (ts1 ++ ts2) = obind (fun d' => chain_width d' ts2) (chain_width d ts1).
Proof.
elim: ts1 d => [|t ts1 IH] d //=.
by case: (step_width d t) => //= d1; rewrite IH.
Qed.

Lemma fit_step (t : transform) (x : tensor) :
  preserves_width t ->
  exists y, t_apply sqrt (t_fit sqrt t x) x = Ok y /\
    ncols y = ncols x /\ nrows y = nrows x /\
    kind_of (t_fit sqrt t x) = kind_of t /\
    step_width (ncols x) (t_fit sqrt t x) = Some (ncols x).
Proof. by case: t => [c|c|c|p|c] //= _; eexists; rewrite ?eqxx. Qed.

Lemma apply_step (t : transform) (x : tensor) (d1 : nat) :
  step_width (ncols x) t = Some d1 ->
  exists y, t_apply sqrt t x = Ok y /\ ncols y = d1 /\ nrows y = nrows x.
Proof.
case: t => [[[d0 m]|]|[[[d0 m] s]|]|[n|]|p|[[d0 s]|]] //=;
  try (case: eqP => // _); by case=> <-; eexists.
Qed.

Lemma reverse_step (t : transform) (d d1 : nat) (z : tensor) :
  step_width d t = Some d1 -> ncols z = d1 ->
  exists w, t_reverse t z = Ok w /\ ncols w = d.
Proof.
case: t => [[[d0 m]|]|[[[d0 m] s]|]|[n|]|p|[[d0 s]|]] //=;
  try (case: eqP => // <-); case=> <- Hz; try rewrite Hz eqxx;
  eexists; split; try reflexivity; by rewrite /= ?Hz ?addnK.
Qed.

Lemma fit_chain_preserving (ts : seq transform) (x : tensor) :
  all preserves_width ts ->
  exists ts' y, fit_chain sqrt ts x = (ts', Ok y) /\
    map kind_of ts' = map kind_of ts /\
    chain_width (ncols x) ts' = Some (ncols x) /\
    ncols y = ncols x /\ nrows y = nrows x.
Proof.
elim: ts x => [|t ts IH] x /=; first by move=> _; exists [::], x.
case/andP=> Ht Hall.
have [y [-> [Hc [Hr [Hk Hw]]]]] := fit_step x Ht.
have [ts' [z [-> [Hks [Hws [Hcz Hrz]]]]]] := IH y Hall.
exists (t_fit sqrt t x :: ts'), z; split=> //.
split; first by rewrite /= Hk Hks.
by rewrite chain_width_cons Hw /= -Hc Hws Hcz Hrz Hc Hr.
Qed.

Lemma apply_chain_width (ts : seq transform) (x : tensor) (d' : nat) :
  chain_width (ncols x) ts = Some d' ->
  exists y, apply_chain sqrt ts x = Ok y /\ ncols y = d' /\ nrows y = nrows x.
Proof.
elim: ts x => [|t ts IH] x /=; first by case=> <-; exists x.
case Hs: (step_width (ncols x) t) => [d1|] //= Hw.
have [y [-> [Hy Hr]]] := apply_step Hs.
rewrite -Hy in Hw; have [z [-> [Hz Hrz]]] := IH y Hw.
by exists z; rewrite Hrz Hr.
Qed.

Lemma reverse_loop_rcons (ts : seq transform) (t : transform) (y : tensor) :
  reverse_loop (rcons ts t) y =
  match reverse_loop ts y with Ok z => t_reverse t z | Err e => Err e end.
Proof.
elim: ts y => [|t' ts IH] y /=; first by case: (t_reverse t y).
by case: (t_reverse t' y).
Qed.

Lemma reverse_chain_width (ts : seq transform) (d d' : nat) (y : tensor) :
  chain_width d ts = Some d' -> ncols y = d' ->
  exists z, reverse_loop (rev ts) y = Ok z /\ ncols z = d.
Proof.
elim: ts d => [|t ts IH] d /=; first by case=> <- <-; exists y.
rewrite rev_cons reverse_loop_rcons.
case Hs: (step_width d t) => [d1|] //= Hw Hy.
have [z [-> Hz]] := IH d1 Hw Hy.
exact: reverse_step Hs Hz.
Qed.

End TransformFacts.

(** * Facts about LatentTranslator *)

Section TranslatorFacts.
Variable R : numFieldType.
Variable sqrt : R -> R.
Variables (E Info G : Type).
Variable seed_everything : nat -> G.
Variable est_fit : E -> G -> tensor R -> tensor R -> result (E * Info) * G.
Variable est_apply : E -> tensor R -> result (tensor R).

Local Notation fit_ := (fit sqrt seed_everything est_fit).
Local Notation forward := (forward sqrt est_apply).
Local Notation translator := (translator R E Info).

Lemma estimate_fitted (t : translator) g src' tgt' :
  fitted (estimate est_fit t g src' tgt').1.2 = fitted t.
Proof. by rewrite /estimate; case: est_fit => [[[e' info]|err] g']. Qed.

(** Whatever its outcome, [fit] leaves the translator marked as fitted. *)
Lemma fit_marks_fitted (t : translator) g src tgt :
  fitted (fit_ t g src tgt).1.2 = true.
Proof.
rewrite /fit; case: ifP => // _.
case: (fit_chain _ _ _) => sts' [src'|err] //=.
case: (fit_chain _ _ _) => tts' [tgt'|err] //=.
by rewrite estimate_fitted.
Qed.

Lemma fit_on_fitted (t : translator) g src tgt :
  fitted t = true -> fit_ t g src tgt = (Err AlreadyFitted, t, g).
Proof. by rewrite /fit => ->. Qed.

(** [forward] never reads the [fitted] flag. *)
Lemma forward_ignores_fitted (t : translator) (b : bool) x :
  forward (Translator (random_seed t) (estimator t) (autopad t) b
             (source_transforms t) (target_transforms t) (raw_data t)
             (transformed_data t) (translator_info t)) x = forward t x.
Proof. by []. Qed.

(** The shape of a first [fit] whose user transforms keep the width: the
    ZeroPadding appended to the narrower side and the data handed to the
    estimator. *)
Lemma fit_first_call (t : translator) g (src tgt : tensor R) :
  fitted t = false ->
  all preserves_width (source_transforms t) ->
  all preserves_width (target_transforms t) ->
  let pad := [:: ZeroPadding (abs_diff (ncols src) (ncols tgt))] in
  let D := maxn (ncols src) (ncols tgt) in
  exists sts0 tts0 src' tgt',
    fit_ t g src tgt =
      estimate est_fit
        (Translator (random_seed t) (estimator t) (autopad t) true
           (sts0 ++ (if (ncols src < ncols tgt)%N then pad else [::]))
           (tts0 ++ (if (ncols tgt < ncols src)%N then pad else [::]))
           (Some (src, tgt)) None None)
        (seed_everything (random_seed t)) src' tgt' /\
    map kind_of sts0 = map kind_of (source_transforms t) /\
    map kind_of tts0 = map kind_of (target_transforms t) /\
    chain_width (ncols src)
      (sts0 ++ (if (ncols src < ncols tgt)%N then pad else [::])) = Some D /\
    chain_width (ncols tgt)
      (tts0 ++ (if (ncols tgt < ncols src)%N then pad else [::])) = Some D /\
    ncols src' = D /\ ncols tgt' = D /\
    nrows src' = nrows src /\ nrows tgt' = nrows tgt.
Proof.
move=> Hf Hs Ht pad D; rewrite /fit Hf.
have [sts0 [y [Hfs [Hks [Hws [Hcy Hry]]]]]] := fit_chain_preserving sqrt src Hs.
have [tts0 [z [Hft [Hkt [Hwt [Hcz Hrz]]]]]] := fit_chain_preserving sqrt tgt Ht.
rewrite /D /pad /abs_diff; case: ltngtP => Hlt.
- rewrite -cats1 fit_chain_cat Hfs /= Hft.
  exists sts0, tts0,
    (Tensor (nrows y) (ncols y + (ncols tgt - ncols src))
       (fun i j => if (j < ncols y)%N then entry y i j else 0)), z.
  split; first by rewrite cats0.
  by rewrite !cats0 chain_width_cat Hws /= Hwt Hcz Hcy Hry Hrz (subnKC (ltnW Hlt)).
- rewrite -cats1 fit_chain_cat Hfs Hft /=.
  exists sts0, tts0, y,
    (Tensor (nrows z) (ncols z + (ncols src - ncols tgt))
       (fun i j => if (j < ncols z)%N then entry z i j else 0)).
  split; first by rewrite cats0.
  by rewrite !cats0 chain_width_cat Hwt /= Hws Hcz Hcy Hry Hrz (subnKC (ltnW Hlt)).
- exists sts0, tts0, y, z; rewrite !cats0 Hfs Hft; split; first reflexivity.
  by rewrite Hws Hwt Hcy Hcz Hry Hrz Hlt.
Qed.

(** [fit] reseeds the generator from [random_seed] before any draw: on an
    unfitted translator its outcome does not depend on the generator state
    it starts from. *)
Lemma fit_reseeds (t : translator) g g' src tgt :
  fitted t = false -> fit_ t g src tgt = fit_ t g' src tgt.
Proof. by rewrite /fit => ->. Qed.

(** C6. Once [fit] has been called on a translator, a second call raises
    the "already fitted" assertion and does nothing else: the translator and
    the random generator are returned unchanged. *)
Theorem fit_twice_already_fitted (t : translator) g src tgt :
  let '(_, t1, _) := fit_ t g src tgt in
  forall g2 src2 tgt2,
    fit_ t1 g2 src2 tgt2 = (Err AlreadyFitted, t1, g2).
Proof.
have := fit_marks_fitted t g src tgt.
case: (fit_ t g src tgt) => [[r t1] g1] /= Hfit g2 src2 tgt2.
exact: fit_on_fitted.
Qed.

(** C10. [fit] marks the translator as fitted before any other work: when
    a first [fit] raises partway, the translator stays marked as fitted and
    every later [fit] raises the "already fitted" assertion. *)
Theorem failed_fit_cannot_be_retried (t : translator) g src tgt err t1 g1 :
  fitted t = false ->
  fit_ t g src tgt = (Err err, t1, g1) ->
  fitted t1 = true /\
  forall g2 src2 tgt2, fit_ t1 g2 src2 tgt2 = (Err AlreadyFitted, t1, g2).
Proof.
move=> _ Hfit.
have Hf : fitted t1 = true by have := fit_marks_fitted t g src tgt; rewrite Hfit.
by split=> // g2 src2 tgt2; apply: fit_on_fitted.
Qed.

End TranslatorFacts.

(** * LatentTranslator with the SVD estimator *)

Section SVDTranslatorFacts.
Variable R : numFieldType.
Variable sqrt : R -> R.
Variable svd : nat -> (nat -> nat -> R) ->
               (nat -> nat -> R) * (nat -> R) * (nat -> nat -> R).
Variable G : Type.
Variable seed_everything : nat -> G.

Local Notation tensor := (tensor R).

Lemma svd_est_fit_shape (e : option tensor) (a b : tensor) e' info :
  svd_est_fit svd e a b = Ok (e', info) ->
  exists r, e' = Some r /\ nrows r = ncols a /\ ncols r = ncols a.
Proof.
rewrite /svd_est_fit; case: ifP => // _.
by case: svd => [[u s] v] [<- _]; eexists.
Qed.

Lemma svd_est_fit_ok (e : option tensor) (a b : tensor) :
  nrows a = nrows b -> ncols a = ncols b -> is_ok (svd_est_fit svd e a b).
Proof.
by move=> Hr Hc; rewrite /svd_est_fit Hr Hc !eqxx /=; case: svd => [[u s] v].
Qed.

Lemma svd_est_apply_width (r x : tensor) :
  ncols x = nrows r ->
  exists y, svd_est_apply (Some r) x = Ok y /\ ncols y = ncols r.
Proof. by move=> Hx; rewrite /svd_est_apply Hx eqxx; eexists. Qed.

Lemma map_kind_pad (b : bool) (n : nat) :
  map kind_of (if b then [:: ZeroPadding n] else [::] : seq (transform R)) =
  if b then [:: KZeroPadding n] else [::].
Proof. by case: b. Qed.


End SVDTranslatorFacts.

(** * LatentTranslator on concrete inputs *)

(** C2 (code). An SVD estimator fitted on its own, handed to a translator
    whose [fit] was never called: [forward] runs through and returns a
    result instead of raising a "not fitted" error. *)
Theorem forward_before_fit_proceeds :
  let est := if svd_est_fit diag_svd None (eye 2) (eye 2) is Ok (e, _)
             then e else None in
  let t := new_translator 0 est [::] [::] true
           : translator rat (option (tensor rat)) nat in
  fitted t = false /\
  is_ok (forward rat_sqrt (@svd_est_apply rat) t (zeros 3 2)) = true.
Proof.
case H: (svd_est_fit diag_svd None (eye 2) (eye 2)) => [[e info]|err].
- have [r [-> [Hr _]]] := svd_est_fit_shape H.
  by split=> //; rewrite /forward /= /svd_est_apply Hr.
- by have := svd_est_fit_ok diag_svd None (a:=eye 2) (b:=eye 2) erefl erefl; rewrite H.
Qed.


Lemma failed_fit_cannot_be_retried_witness :
  let t := new_translator 0 None [::] [::] true
           : translator rat (option (tensor rat)) nat in
  let r := fit rat_sqrt (fun _ : nat => tt) (svd_estimator_fit diag_svd)
               t tt (zeros 2 3) (zeros 3 3) in
  r.1.1 = Err ShapeMismatch /\ fitted r.1.2 = true /\
  forall g2 src2 tgt2,
    fit rat_sqrt (fun _ : nat => tt) (svd_estimator_fit diag_svd)
        r.1.2 g2 src2 tgt2 = (Err AlreadyFitted, r.1.2, g2).
Proof.
move=> t r.
have Hr : r = (Err ShapeMismatch, r.1.2, r.2) by reflexivity.
have [H1 H2] := failed_fit_cannot_be_retried (erefl : fitted t = false) Hr.
by split; [rewrite Hr | split].
Defined.

(** * Facts about the reference implementation *)

Section ManualFacts.
Variable R : numFieldType.
Variable sqrt : R -> R.
Variable svd : forall d, 'M[R]_d -> 'M[R]_d * 'rV[R]_d * 'M[R]_d.
Variable svd_rect : forall d1 d2,
  'M[R]_(d1, d2) ->
  'M[R]_(d1, minn d1 d2) * 'rV[R]_(minn d1 d2) * 'M[R]_(d2, minn d1 d2).
Variable lstsq : forall n d1 d2,
  'M[R]_(n, d1) -> 'M[R]_(n, d2) -> 'M[R]_(d1, d2).
Variable G : Type.
Variable linear_init : forall d1 d2, G -> ('M[R]_(d2, d1) * 'rV[R]_d2) * G.
Variable adam_train : forall n d1 d2,
  'M[R]_(n, d1) -> 'M[R]_(n, d2) ->
  'M[R]_(d2, d1) * 'rV[R]_d2 -> 'M[R]_(d2, d1) * 'rV[R]_d2.

Local Notation mfit :=
  (manual_fit sqrt svd svd_rect lstsq linear_init adam_train).

(** C4. [manual_svd_translation] decomposes (target^T @ source)^T as
    U diag(S) V^T and returns R = U V^T (with the singular values). *)
Theorem manual_svd_translation_procrustes n d (A B : 'M[R]_(n, d)) :
  let '(U, Sg, V) := svd ((B^T *m A)^T) in
  manual_svd_translation svd A B = (U *m V^T, Sg).
Proof. by rewrite /manual_svd_translation; case: svd => [[U Sg] V]. Qed.

(** C5. When the SVD returns factors with orthonormal columns (U^T U = I,
    V^T V = I), the mapping R = U V^T is orthogonal: R R^T = I. *)
Theorem manual_svd_translation_orthogonal n d (A B : 'M[R]_(n, d)) :
  let '(U, Sg, V) := svd ((B^T *m A)^T) in
  U^T *m U = 1%:M -> V^T *m V = 1%:M ->
  (manual_svd_translation svd A B).1 *m (manual_svd_translation svd A B).1^T
  = 1%:M.
Proof.
rewrite /manual_svd_translation; case: svd => [[U Sg] V] /= HU HV.
rewrite trmx_mul trmxK mulmxA -(mulmxA U) HV mulmx1.
exact: mulmx1C.
Qed.

Lemma not_isclose_zero (x : R) :
  ~~ isclose (10%:R)^-1 x 0 = ((10%:R)^-1 < `|x|).
Proof.
rewrite /isclose subr0 normr0 mulr0 addr0 real_ltNge ?normr_real //.
by rewrite realE invr_ge0 ler0n.
Qed.

(** C9. With the "svd" method, [fit] stores as [sigma_rank] the number of
    singular values S of the decomposed matrix with |s| > 0.1 (not close to
    zero at atol 0.1) and stores R = U V^T, which does not depend on S. *)
Theorem manual_svd_rank_is_diagnostic n d1 d2 (m : manual R d1 d2) (g : G)
    (enc : 'M[R]_(n, d1)) (dec : 'M[R]_(n, d2)) :
  method m = "svd"%string ->
  let '(A, B, st) := normalized_anchors sqrt m enc dec in
  let '(U, Sg, V) :=
    svd ((pad_to (maxn d1 d2) B)^T *m pad_to (maxn d1 d2) A)^T in
  mfit m g enc dec =
    (Ok tt,
     set_fitted m st
       (Some (\sum_(i < maxn d1 d2) nat_of_bool ((10%:R)^-1 < `|Sg ord0 i|)%R)%N)
       (Some (SvdMap (U *m V^T))),
     g).
Proof.
move=> Hm; rewrite /manual_fit Hm /=.
case: (normalized_anchors sqrt m enc dec) => [[A B] st].
rewrite /manual_svd_translation; case: svd => [[U Sg] V] /=.
by rewrite /sigma_rank_of; under eq_bigr => i _ do rewrite not_isclose_zero.
Qed.

(** C8. A method string other than "absolute", "linear", "svd", "lstsq"
    and "lstsq+ortho" makes [fit] raise NotImplementedError, and no
    mapping is stored. *)
Theorem manual_fit_unsupported_method n d1 d2 (m : manual R d1 d2) (g : G)
    (enc : 'M[R]_(n, d1)) (dec : 'M[R]_(n, d2)) :
  method m <> "absolute"%string -> method m <> "linear"%string ->
  method m <> "svd"%string -> method m <> "lstsq"%string ->
  method m <> "lstsq+ortho"%string ->
  let '(r, m1, _) := mfit m g enc dec in
  r = Err NotImplemented /\ translation_of m1 = None.
Proof.
move=> /String.eqb_neq H1 /String.eqb_neq H2 /String.eqb_neq H3
       /String.eqb_neq H4 /String.eqb_neq H5.
rewrite /manual_fit H1.
by case: normalized_anchors => [[A B] st]; rewrite H2 H3 H4 H5.
Qed.

(** C7 (code). With the "linear" method, [fit] never reads [seed]: the
    mapping is a fixed function of the weights [nn.Linear] draws from the
    global generator in the state [fit] finds it in, whatever the seed, and
    the generator is left advanced. Two fits with the same seed and data,
    one after the other, thus start from different draws. *)
Theorem manual_linear_fit_ignores_seed n d1 d2 (m : manual R d1 d2)
    (enc : 'M[R]_(n, d1)) (dec : 'M[R]_(n, d2)) :
  method m = "linear"%string ->
  exists train : 'M[R]_(d2, d1) * 'rV[R]_d2 -> translation R d1 d2,
  forall (g : G) (sd : nat),
    let '(r, m1, g1) := mfit (set_seed m sd) g enc dec in
    r = Ok tt /\ translation_of m1 = Some (train (linear_init d1 d2 g).1) /\
    g1 = (linear_init d1 d2 g).2.
Proof.
move=> Hm.
case HN: (normalized_anchors sqrt m enc dec) => [[A B] st].
exists (fun w => LinearMap (adam_train A B w).1 (adam_train A B w).2).
move=> g sd.
have Hm' : method (set_seed m sd) = "linear"%string by exact: Hm.
have HN' : normalized_anchors sqrt (set_seed m sd) enc dec = (A, B, st)
  by exact: HN.
rewrite /manual_fit Hm' HN' /=.
by case: linear_init => [w g'].
Qed.

End ManualFacts.

(** * The reference implementation on concrete inputs *)

Lemma manual_svd_translation_orthogonal_witness :
  let A := 1%:M : 'M[rat]_2 in
  let '(U, Sg, V) := diag_svd_mx ((A^T *m A)^T) in
  U^T *m U = 1%:M /\ V^T *m V = 1%:M /\
  (manual_svd_translation diag_svd_mx A A).1 *m
    (manual_svd_translation diag_svd_mx A A).1^T = 1%:M.
Proof.
move=> A /=.
have H : (1%:M : 'M[rat]_2)^T *m 1%:M = 1%:M by rewrite trmx1 mulmx1.
have := manual_svd_translation_orthogonal diag_svd_mx A A; rewrite /= => Hth.
by split; [exact H | split; [exact H | exact (Hth H H)]].
Defined.

Lemma manual_fit_unsupported_method_witness :
  let m := new_manual rat 1 1 0 true false false "procrustes" in
  let enc := 1%:M : 'M[rat]_1 in
  method m <> "absolute"%string /\ method m <> "linear"%string /\
  method m <> "svd"%string /\ method m <> "lstsq"%string /\
  method m <> "lstsq+ortho"%string /\
  let '(r, m1, _) :=
    manual_fit rat_sqrt diag_svd_mx (fun d1 d2 _ => (0, 0, 0))
      (fun n d1 d2 _ _ => 0) (fun d1 d2 (g : unit) => (0, 0, g))
      (fun n d1 d2 _ _ w => w) m tt enc enc in
  r = Err NotImplemented /\ translation_of m1 = None.
Proof.
move=> m enc.
have H1 : method m <> "absolute"%string by apply/String.eqb_neq; vm_compute.
have H2 : method m <> "linear"%string by apply/String.eqb_neq; vm_compute.
have H3 : method m <> "svd"%string by apply/String.eqb_neq; vm_compute.
have H4 : method m <> "lstsq"%string by apply/String.eqb_neq; vm_compute.
have H5 : method m <> "lstsq+ortho"%string by apply/String.eqb_neq; vm_compute.
split; [exact H1 | split; [exact H2 | split; [exact H3 | split; [exact H4 | split; [exact H5 | ]]]]].
exact (manual_fit_unsupported_method rat_sqrt diag_svd_mx
          (fun d1 d2 _ => (0, 0, 0)) (fun n d1 d2 _ _ => 0)
          (fun d1 d2 (g : unit) => (0, 0, g)) (fun n d1 d2 _ _ w => w)
          tt enc enc H1 H2 H3 H4 H5).
Defined.

Lemma manual_svd_rank_is_diagnostic_witness :
  let m := new_manual rat 2 2 0 true false false "svd" in
  let enc := 1%:M : 'M[rat]_2 in
  method m = "svd"%string /\
  let '(A, B, st) := normalized_anchors rat_sqrt m enc enc in
  let '(U, Sg, V) :=
    diag_svd_mx ((pad_to (maxn 2 2) B)^T *m pad_to (maxn 2 2) A)^T in
  manual_fit rat_sqrt diag_svd_mx (fun d1 d2 _ => (0, 0, 0))
      (fun n d1 d2 _ _ => 0) (fun d1 d2 (g : unit) => (0, 0, g))
      (fun n d1 d2 _ _ w => w) m tt enc enc =
    (Ok tt,
     set_fitted m st
       (Some (\sum_(i < maxn 2 2) nat_of_bool ((10%:R)^-1 < `|Sg ord0 i|)%R)%N)
       (Some (SvdMap (U *m V^T))),
     tt).
Proof.
move=> m enc.
have Hm : method m = "svd"%string by [].
split=> //.
exact: (manual_svd_rank_is_diagnostic rat_sqrt diag_svd_mx _ _ _ _ tt enc enc Hm).
Defined.

Lemma manual_linear_fit_ignores_seed_witness :
  let m := new_manual rat 2 2 0 false false false "linear" in
  let enc := 1%:M : 'M[rat]_2 in
  let init := fun d1 d2 (g : nat) => (const_mx g%:R : 'M[rat]_(d2, d1), 0, g.+1) in
  let train := fun n d1 d2 (_ : 'M[rat]_(n, d1)) (_ : 'M[rat]_(n, d2))
                   (w : 'M[rat]_(d2, d1) * 'rV[rat]_d2) => w in
  method m = "linear"%string /\
  exists tr : 'M[rat]_(2, 2) * 'rV[rat]_2 -> translation rat 2 2,
  forall (g : nat) (sd : nat),
    let '(r, m1, g1) :=
      manual_fit rat_sqrt diag_svd_mx (fun d1 d2 _ => (0, 0, 0))
        (fun n d1 d2 _ _ => 0) init train (set_seed m sd) g enc enc in
    r = Ok tt /\ translation_of m1 = Some (tr (init 2 2 g).1) /\
    g1 = (init 2 2 g).2.
Proof.
move=> m enc init train.
have Hm : method m = "linear"%string by [].
split=> //.
exact (manual_linear_fit_ignores_seed rat_sqrt diag_svd_mx
         (fun d1 d2 _ => (0, 0, 0)) (fun n d1 d2 _ _ => 0) init train enc enc Hm).
Defined.

(** * More facts about LatentTranslator *)

Section TranslatorExtra.
Variable R : numFieldType.
Variable sqrt : R -> R.
Variables (E Info G : Type).
Variable seed_everything : nat -> G.
Variable est_fit : E -> G -> tensor R -> tensor R -> result (E * Info) * G.
Variable est_apply : E -> tensor R -> result (tensor R).

Local Notation fit_ := (fit sqrt seed_everything est_fit).
Local Notation forward := (forward sqrt est_apply).
Local Notation translator := (translator R E Info).

Lemma kind_t_fit (tr : transform R) x : kind_of (t_fit sqrt tr x) = kind_of tr.
Proof. by case: tr. Qed.

Lemma fit_chain_kinds (ts : seq (transform R)) x :
  map kind_of (fit_chain sqrt ts x).1 = map kind_of ts.
Proof.
elim: ts x => [|tr ts IH] x //=.
case: (t_apply sqrt (t_fit sqrt tr x) x) => [y|e] /=; last by rewrite kind_t_fit.
by have := IH y; case: (fit_chain sqrt ts y) => ts' r /= ->; rewrite kind_t_fit.
Qed.

Lemma kinds_pad (b : bool) (ts : seq (transform R)) p :
  map kind_of (if b then rcons ts (ZeroPadding p) else ts) =
  map kind_of ts ++ (if b then [:: KZeroPadding p] else [::]).
Proof. by case: b; rewrite ?map_rcons -?cats1 ?cats0. Qed.

Lemma estimate_keeps (t : translator) g src' tgt' :
  let t' := (estimate est_fit t g src' tgt').1.2 in
  source_transforms t' = source_transforms t /\
  target_transforms t' = target_transforms t /\
  raw_data t' = raw_data t /\ random_seed t' = random_seed t /\
  autopad t' = autopad t.
Proof. by rewrite /estimate; case: est_fit => [[[e' info]|err] g']. Qed.

(** On a first [fit], whatever the transforms, the estimator and the
    outcome (even when a transform or the estimator fails), the kinds of
    the new source and target transform lists are the old ones followed by
    one ZeroPadding of width |source width - target width| on the narrower
    side only; nothing is appended when the widths are equal. *)
Theorem fit_pads_kinds (t : translator) g src tgt :
  fitted t = false ->
  let pad := [:: KZeroPadding (abs_diff (ncols src) (ncols tgt))] in
  let t' := (fit_ t g src tgt).1.2 in
  map kind_of (source_transforms t') =
    map kind_of (source_transforms t) ++
    (if (ncols src < ncols tgt)%N then pad else [::]) /\
  map kind_of (target_transforms t') =
    map kind_of (target_transforms t) ++
    (if (ncols tgt < ncols src)%N then pad else [::]).
Proof.
move=> Hf pad t'; rewrite /t' /fit Hf -!kinds_pad.
set sts := if _ then rcons (source_transforms t) _ else _.
set tts := if _ then rcons (target_transforms t) _ else _.
have := fit_chain_kinds sts src.
case: (fit_chain sqrt sts src) => sts' [src'|e] /= Ks //.
have := fit_chain_kinds tts tgt.
case: (fit_chain sqrt tts tgt) => tts' [tgt'|e] /= Kt //.
by have [-> [-> _]] := estimate_keeps
  (Translator (random_seed t) (estimator t) (autopad t) true sts' tts'
     (Some (src, tgt)) None None) (seed_everything (random_seed t)) src' tgt'.
Qed.

(** A first [fit] registers the raw fitting data (the "source_data" and
    "target_data" buffers) whatever its outcome, and keeps the seed and the
    autopad flag. *)
Theorem fit_registers_raw_data (t : translator) g src tgt :
  fitted t = false ->
  let t' := (fit_ t g src tgt).1.2 in
  raw_data t' = Some (src, tgt) /\ random_seed t' = random_seed t /\
  autopad t' = autopad t.
Proof.
move=> Hf t'; rewrite /t' /fit Hf.
case: (fit_chain sqrt _ src) => sts' [src'|e] //=.
case: (fit_chain sqrt _ tgt) => tts' [tgt'|e] //=.
by have [_ [_ [-> [-> ->]]]] := estimate_keeps
  (Translator (random_seed t) (estimator t) (autopad t) true sts' tts'
     (Some (src, tgt)) None None) (seed_everything (random_seed t)) src' tgt'.
Qed.

(** After a first [fit], the translator holds metadata and transformed
    buffers exactly when the call succeeded: a successful call records its
    info and the transformed data; a failed one records neither. *)
Theorem fit_info_iff_ok (t : translator) g src tgt :
  fitted t = false ->
  let '(r, t', _) := fit_ t g src tgt in
  (forall info, r = Ok info ->
     translator_info t' = Some info /\ transformed_data t' <> None) /\
  (forall e, r = Err e ->
     translator_info t' = None /\ transformed_data t' = None).
Proof.
move=> Hf; rewrite /fit Hf.
case: (fit_chain sqrt _ src) => sts' [src'|e] /=; last by split=> // ? [].
case: (fit_chain sqrt _ tgt) => tts' [tgt'|e] /=; last by split=> // ? [].
rewrite /estimate; case: est_fit => [[[e' info]|err] g'] /=.
  by split=> // ? [<-].
by split=> // ? [].
Qed.

(** [__init__] with no transforms (None on both sides), then [fit] on data
    of equal widths: no padding is added, the estimator is fitted on the raw
    data, and [forward] is the estimator's apply with the input itself as
    the "source" entry. *)
Theorem init_fit_forward_no_transforms (seed : nat) (est : E) (pad : bool)
    g (src tgt : tensor R) e' info g' x :
  ncols src = ncols tgt ->
  est_fit est (seed_everything seed) src tgt = (Ok (e', info), g') ->
  let t := init_translator seed est NoTransforms NoTransforms pad : translator in
  let '(r, t1, g1) := fit_ t g src tgt in
  r = Ok info /\ g1 = g' /\
  forward t1 x =
    match est_apply e' x with Ok y => Ok (x, y) | Err err => Err err end.
Proof.
move=> Hc Hest t; rewrite /t /fit /= Hc ltnn /estimate /= Hest /=.
do 2!split=> //.
Qed.

Lemma reverse_apply_step (tr : transform R) x y :
  match tr with
  | Centering (Some _) => True
  | StandardScaling (Some (_, _, s)) => forall j, s j != 0
  | _ => False
  end ->
  t_apply sqrt tr x = Ok y ->
  exists z, t_reverse tr y = Ok z /\ same_tensor z x.
Proof.
case: tr => [[[d m]|]|[[[d m] s]|]|[n|]|p|[[d s]|]] //= Hs.
- case: eqP => // Hd [<-] /=; rewrite Hd eqxx; eexists; split; first reflexivity.
  by case: x Hd => n0 d0 f /= Hd; split=> //; split=> // i j /=; rewrite subrK.
- case: eqP => // Hd [<-] /=; rewrite Hd eqxx; eexists; split; first reflexivity.
  by case: x Hd => n0 d0 f /= Hd; split=> //; split=> // i j /=; rewrite divfK ?subrK.
Qed.

Lemma reverse_same (tr : transform R) y y' :
  same_tensor y y' ->
  match t_reverse tr y, t_reverse tr y' with
  | Ok z, Ok z' => same_tensor z z'
  | Err e, Err e' => e = e'
  | _, _ => False
  end.
Proof.
case: y y' => [n d f] [n' d' f'] [/= <- [<- Hf]].
case: tr => [[[d0 m]|]|[[[d0 m] s]|]|[k|]|p|[[d0 s]|]] //=; try (case: eqP => //);
  by split=> //; split=> // i j /=; rewrite Hf.
Qed.

Lemma reverse_loop_same (ts : seq (transform R)) y y' :
  same_tensor y y' ->
  match reverse_loop ts y, reverse_loop ts y' with
  | Ok z, Ok z' => same_tensor z z'
  | Err e, Err e' => e = e'
  | _, _ => False
  end.
Proof.
elim: ts y y' => [|tr ts IH] y y' Hy //=.
have := reverse_same tr Hy.
case: (t_reverse tr y) => [z|e]; case: (t_reverse tr y') => [z'|e'] //.
exact: IH.
Qed.

Lemma same_tensor_trans (x y z : tensor R) :
  same_tensor x y -> same_tensor y z -> same_tensor x z.
Proof.
move=> [H1 [H2 H3]] [H4 [H5 H6]]; split; first congruence.
by split=> [|i j]; [congruence | rewrite H3 H6].
Qed.

(** [forward] undoes the fitted transforms on the target side: when both
    sides share the same fitted Centering / StandardScaling transforms (with
    nonzero scales) and the estimator maps the transformed input to itself,
    the "target" output has the shape and entries of the input. *)
Theorem forward_round_trip (t : translator) (x sx : tensor R) :
  source_transforms t = target_transforms t ->
  List.Forall (fun tr => match tr with
                         | Centering (Some _) => True
                         | StandardScaling (Some (_, _, s)) => forall j, s j != 0
                         | _ => False
                         end) (source_transforms t) ->
  apply_chain sqrt (source_transforms t) x = Ok sx ->
  est_apply (estimator t) sx = Ok sx ->
  exists y, forward t x = Ok (sx, y) /\ same_tensor y x.
Proof.
move=> Hst Hinv Hx Hest; rewrite /forward -Hst Hx Hest.
suff: exists y, reverse_loop (rev (source_transforms t)) sx = Ok y /\
                same_tensor y x by case=> y [-> Hy]; exists y.
elim: (source_transforms t) x Hinv Hx => [|tr ts IH] x Hinv /=.
  by case=> ->; exists sx; do 2!split.
inversion Hinv as [|? ? Htr Hts]; subst.
case Hy: (t_apply sqrt tr x) => [y|e] // Hsx.
have [z [Hz Hzx]] := IH y Hts Hsx.
have [w [Hw Hwy]] := reverse_apply_step Htr Hy.
rewrite rev_cons reverse_loop_rcons Hz.
have := reverse_same tr Hzx; rewrite Hw.
case: (t_reverse tr z) => [w'|e] // Hw'.
by exists w'; split=> //; exact: same_tensor_trans Hw' Hwy.
Qed.

End TranslatorExtra.

(** * More LatentTranslator examples *)

Lemma fit_pads_kinds_witness :
  let t := new_translator 0 None [:: Centering None] [:: L2 None] false
             : translator rat (option (tensor rat)) nat in
  let src := zeros 2 3 in
  let tgt := zeros 3 5 in
  fitted t = false /\
  let pad := [:: KZeroPadding (abs_diff (ncols src) (ncols tgt))] in
  let t' := (fit rat_sqrt (fun _ : nat => tt) (svd_estimator_fit diag_svd)
               t tt src tgt).1.2 in
  map kind_of (source_transforms t') =
    map kind_of (source_transforms t) ++
    (if (ncols src < ncols tgt)%N then pad else [::]) /\
  map kind_of (target_transforms t') =
    map kind_of (target_transforms t) ++
    (if (ncols tgt < ncols src)%N then pad else [::]).
Proof.
move=> t src tgt.
have Hf : fitted t = false by [].
split; [exact Hf |].
exact (fit_pads_kinds rat_sqrt (fun _ : nat => tt) (svd_estimator_fit diag_svd)
         tt src tgt Hf).
Defined.

Lemma fit_registers_raw_data_witness :
  let t := new_translator 0 None [:: Centering None] [:: L2 None] false
             : translator rat (option (tensor rat)) nat in
  let src := zeros 2 3 in
  let tgt := zeros 3 5 in
  fitted t = false /\
  let t' := (fit rat_sqrt (fun _ : nat => tt) (svd_estimator_fit diag_svd)
               t tt src tgt).1.2 in
  raw_data t' = Some (src, tgt) /\ random_seed t' = random_seed t /\
  autopad t' = autopad t.
Proof.
move=> t src tgt.
have Hf : fitted t = false by [].
split; [exact Hf |].
exact (fit_registers_raw_data rat_sqrt (fun _ : nat => tt)
         (svd_estimator_fit diag_svd) tt src tgt Hf).
Defined.

Lemma fit_info_iff_ok_witness :
  let t := new_translator 0 None [::] [::] true
             : translator rat (option (tensor rat)) nat in
  let src := eye 2 in
  let tgt := eye 2 in
  fitted t = false /\
  let '(r, t', _) := fit rat_sqrt (fun _ : nat => tt)
                       (svd_estimator_fit diag_svd) t tt src tgt in
  (forall info, r = Ok info ->
     translator_info t' = Some info /\ transformed_data t' <> None) /\
  (forall e, r = Err e ->
     translator_info t' = None /\ transformed_data t' = None).
Proof.
move=> t src tgt.
have Hf : fitted t = false by [].
split; [exact Hf |].
exact (fit_info_iff_ok rat_sqrt (fun _ : nat => tt)
         (svd_estimator_fit diag_svd) tt src tgt Hf).
Defined.

Lemma init_fit_forward_no_transforms_witness :
  let est_fit := fun (e : nat) (g : unit) (a b : tensor rat) =>
                   ((Ok (e + ncols a, nrows b) : result (nat * nat)), g) in
  let est_apply := fun (e : nat) (x : tensor rat) =>
                     (Ok (zeros (nrows x) e) : result (tensor rat)) in
  let src := eye 2 in
  let tgt := zeros 3 2 in
  ncols src = ncols tgt /\
  est_fit 1 ((fun _ : nat => tt) 0) src tgt = (Ok (3, 3), tt) /\
  let t := init_translator 0 1 NoTransforms NoTransforms false
             : translator rat nat nat in
  let '(r, t1, g1) := fit rat_sqrt (fun _ : nat => tt) est_fit t tt src tgt in
  r = Ok 3 /\ g1 = tt /\
  forward rat_sqrt est_apply t1 (eye 4) =
    match est_apply 3 (eye 4) with
    | Ok y => Ok (eye 4, y)
    | Err err => Err err
    end.
Proof.
move=> est_fit est_apply src tgt.
have Hc : ncols src = ncols tgt by [].
have Hest : est_fit 1 ((fun _ : nat => tt) 0) src tgt = (Ok (3, 3), tt) by [].
split; [exact Hc | split; [exact Hest |]].
exact (init_fit_forward_no_transforms rat_sqrt est_apply false tt (eye 4) Hc Hest).
Defined.

Lemma forward_round_trip_witness :
  let ts := [:: Centering (Some (2, fun _ => 1));
                StandardScaling (Some (2, fun _ => 0, fun _ => 2%:R))]
            : seq (transform rat) in
  let t := Translator 0 tt false true ts ts None None None
             : translator rat unit nat in
  let est_apply := fun (_ : unit) (x : tensor rat) => (Ok x : result (tensor rat)) in
  let x := eye 2 in
  let sx := if apply_chain rat_sqrt ts x is Ok y then y else x in
  source_transforms t = target_transforms t /\
  List.Forall (fun tr => match tr with
                         | Centering (Some _) => True
                         | StandardScaling (Some (_, _, s)) => forall j, s j != 0
                         | _ => False
                         end) (source_transforms t) /\
  apply_chain rat_sqrt (source_transforms t) x = Ok sx /\
  est_apply (estimator t) sx = Ok sx /\
  exists y, forward rat_sqrt est_apply t x = Ok (sx, y) /\ same_tensor y x.
Proof.
move=> ts t est_apply x sx.
have H1 : source_transforms t = target_transforms t by [].
have H2 : List.Forall (fun tr => match tr with
                         | Centering (Some _) => True
                         | StandardScaling (Some (_, _, s)) => forall j, s j != 0
                         | _ => False
                         end) (source_transforms t).
  by constructor; [| constructor; [by move=> j; rewrite pnatr_eq0 | constructor]].
have H3 : apply_chain rat_sqrt (source_transforms t) x = Ok sx by reflexivity.
have H4 : est_apply (estimator t) sx = Ok sx by [].
split; [exact H1 | split; [exact H2 | split; [exact H3 | split; [exact H4 |]]]].
exact (forward_round_trip H1 H2 H3 H4).
Defined.

(** * More facts about the reference implementation *)

Section ManualExtra.
Variable R : numFieldType.
Variable sqrt : R -> R.
Variable svd : forall d, 'M[R]_d -> 'M[R]_d * 'rV[R]_d * 'M[R]_d.
Variable svd_rect : forall d1 d2,
  'M[R]_(d1, d2) ->
  'M[R]_(d1, minn d1 d2) * 'rV[R]_(minn d1 d2) * 'M[R]_(d2, minn d1 d2).
Variable lstsq : forall n d1 d2,
  'M[R]_(n, d1) -> 'M[R]_(n, d2) -> 'M[R]_(d1, d2).
Variable G : Type.
Variable linear_init : forall d1 d2, G -> ('M[R]_(d2, d1) * 'rV[R]_d2) * G.
Variable adam_train : forall n d1 d2,
  'M[R]_(n, d1) -> 'M[R]_(n, d2) ->
  'M[R]_(d2, d1) * 'rV[R]_d2 -> 'M[R]_(d2, d1) * 'rV[R]_d2.

Local Notation mfit :=
  (manual_fit sqrt svd svd_rect lstsq linear_init adam_train).
Local Notation mtransform := (manual_transform sqrt).


(** After a [fit] with an unsupported method, the buffers are registered
    but no translation is, so [transform] fails when it reads the
    translation. *)
Theorem manual_transform_after_unsupported_fit n k d1 d2 (m : manual R d1 d2)
    g (enc : 'M[R]_(n, d1)) (dec : 'M[R]_(n, d2)) (X : 'M[R]_(k, d1)) :
  method m <> "absolute"%string -> method m <> "linear"%string ->
  method m <> "svd"%string -> method m <> "lstsq"%string ->
  method m <> "lstsq+ortho"%string ->
  let '(_, m1, _) := mfit m g enc dec in
  stats m1 <> None /\ mtransform m1 X = Err NotFitted.
Proof.
move=> /String.eqb_neq H1 /String.eqb_neq H2 /String.eqb_neq H3
       /String.eqb_neq H4 /String.eqb_neq H5.
rewrite /manual_fit H1.
case: (normalized_anchors sqrt m enc dec) => [[A B] st].
by rewrite H2 H3 H4 H5 /manual_transform /= H1.
Qed.

Lemma pad_mul_top n d1 d2 (x : 'M[R]_(n, d1)) (r : 'M[R]_(maxn d1 d2)) :
  pad_to (maxn d1 d2) x *m r =
  x *m \matrix_(k, j) r (widen_ord (leq_maxl d1 d2) k) j.
Proof.
apply/matrixP => i j; rewrite !mxE.
rewrite (bigID (fun k : 'I_(maxn d1 d2) => (k < d1)%N)) /=.
rewrite [X in _ + X]big1.
  move=> k Hk; rewrite mxE; case: insubP => [k' Hk' _|_]; last by rewrite mul0r.
  by rewrite Hk' in Hk.
rewrite addr0 (big_ord_narrow (leq_maxl d1 d2)); apply: eq_bigr => k _.
by rewrite !mxE /= valK.
Qed.

(** With an SVD mapping, [transform] zero-pads the encoded input to
    max(d1, d2) columns and multiplies by the mapping: the padding columns
    meet only the rows of the mapping beyond d1, so the output depends on
    its first d1 rows only. *)
Theorem manual_svd_transform_reads_top_rows k d1 d2 (m : manual R d1 d2)
    st r (X : 'M[R]_(k, d1)) :
  method m <> "absolute"%string -> stats m = Some st ->
  translation_of m = Some (SvdMap r) ->
  target_of (mtransform m X) =
    Some (restore m st (pad_to d2 (encode_input sqrt m st X *m
            \matrix_(i, j) r (widen_ord (leq_maxl d1 d2) i) j))).
Proof.
move=> /String.eqb_neq H Hs Ht.
by rewrite /manual_transform H Hs Ht /= pad_mul_top.
Qed.

Lemma aff_entry (a x y k c : R) :
  (a * x + (1 - a) * y) * k + c = a * (x * k + c) + (1 - a) * (y * k + c).
Proof.
rewrite !mulrDr addrACA -mulrDl (addrC a) subrK mul1r mulrDl !mulrA.
by [].
Qed.

Lemma aff_add (a x y c : R) :
  a * x + (1 - a) * y + c = a * (x + c) + (1 - a) * (y + c).
Proof. by have := aff_entry a x y 1 c; rewrite !mulr1. Qed.

Lemma aff_sub (a x y c k : R) :
  (a * x + (1 - a) * y - c) * k = a * ((x - c) * k) + (1 - a) * ((y - c) * k).
Proof. by rewrite !(mulrBl k) -!mulNr aff_entry. Qed.

Lemma standardize_aff k d (a : R) (X Y : 'M[R]_(k, d)) mu s :
  standardize (a *: X + (1 - a) *: Y) mu s =
  a *: standardize X mu s + (1 - a) *: standardize Y mu s.
Proof.
apply/matrixP => i j; rewrite !mxE.
exact: aff_sub.
Qed.

Lemma pad_to_aff k d p (a : R) (X Y : 'M[R]_(k, d)) :
  pad_to p (a *: X + (1 - a) *: Y) = a *: pad_to p X + (1 - a) *: pad_to p Y.
Proof.
apply/matrixP => i j; rewrite !mxE.
by case: insub => [j'|]; rewrite ?mxE // !mulr0 addr0.
Qed.

Lemma mul_aff k d d' (a : R) (X Y : 'M[R]_(k, d)) (M : 'M[R]_(d, d')) :
  (a *: X + (1 - a) *: Y) *m M = a *: (X *m M) + (1 - a) *: (Y *m M).
Proof. by rewrite mulmxDl -!scalemxAl. Qed.

Lemma linear_apply_aff k d1 d2 (a : R) (X Y : 'M[R]_(k, d1)) w (b : 'rV[R]_d2) :
  linear_apply w b (a *: X + (1 - a) *: Y) =
  a *: linear_apply w b X + (1 - a) *: linear_apply w b Y.
Proof.
apply/matrixP => i j; rewrite /linear_apply mul_aff !mxE.
exact: aff_add.
Qed.

Lemma restore_aff k d1 d2 (m : manual R d1 d2) st (a : R) (y z : 'M[R]_(k, d2)) :
  l2_norm m = false ->
  restore m st (a *: y + (1 - a) *: z) =
  a *: restore m st y + (1 - a) *: restore m st z.
Proof.
move=> Hl; apply/matrixP => i j; rewrite /restore Hl !mxE.
exact: aff_entry.
Qed.

(** Without L2 normalisation and with nonzero encoding stds, [transform] of
    a fitted model is affine in its input: the target of an affine
    combination aX + (1-a)Y is the same combination of the targets of X and
    Y, for each kind of mapping. *)
Theorem manual_transform_affine k d1 d2 (m : manual R d1 d2) st tr (a : R)
    (X Y : 'M[R]_(k, d1)) :
  method m <> "absolute"%string -> l2_norm m = false ->
  stats m = Some st -> (forall j, std_encoding_anchors st ord0 j != 0) ->
  translation_of m = Some tr ->
  exists tX tY,
    target_of (mtransform m X) = Some tX /\
    target_of (mtransform m Y) = Some tY /\
    target_of (mtransform m (a *: X + (1 - a) *: Y)) =
      Some (a *: tX + (1 - a) *: tY).
Proof.
move=> /String.eqb_neq H Hl Hs _ Ht.
rewrite /manual_transform H Hs Ht /encode_input Hl.
case: tr Ht => [w b|r|M] Ht /=; (eexists; eexists; split; [reflexivity|
  split; [reflexivity|]]).
- by rewrite standardize_aff linear_apply_aff restore_aff.
- by rewrite standardize_aff pad_to_aff mul_aff pad_to_aff restore_aff.
- by rewrite standardize_aff mul_aff restore_aff.
Qed.

Lemma normalized_anchors_encode n d1 d2 (m : manual R d1 d2)
    (enc : 'M[R]_(n, d1)) (dec : 'M[R]_(n, d2)) A B st :
  normalized_anchors sqrt m enc dec = (A, B, st) ->
  encode_input sqrt m st enc = A /\
  (l2_norm m = false ->
   B = standardize dec (mean_decoding_anchors st) (std_decoding_anchors st)).
Proof.
rewrite /normalized_anchors /encode_input.
by case: (l2_norm m) => -[<- <- <-].
Qed.

Lemma encode_input_set_fitted n d1 d2 (m : manual R d1 d2) st st' rk tr
    (X : 'M[R]_(n, d1)) :
  encode_input sqrt (set_fitted m st' rk tr) st X = encode_input sqrt m st X.
Proof. by []. Qed.

(** After an SVD [fit], transforming the encoding anchors returns as
    "source" the normalised anchors the mapping was fitted on, zero-padded
    to max(d1, d2) columns. *)
Theorem manual_svd_fit_transform_source n d1 d2 (m : manual R d1 d2) g
    (enc : 'M[R]_(n, d1)) (dec : 'M[R]_(n, d2)) :
  method m = "svd"%string ->
  let '(_, m1, _) := mfit m g enc dec in
  exists y, mtransform m1 enc =
    Ok (SvdOut (pad_to (maxn d1 d2) (normalized_anchors sqrt m enc dec).1.1) y).
Proof.
move=> Hm.
case HN: (normalized_anchors sqrt m enc dec) => [[A B] st].
have [HA _] := normalized_anchors_encode HN.
rewrite /manual_fit Hm HN /=.
case: (manual_svd_translation _ _ _) => r sg /=.
rewrite /manual_transform Hm /= encode_input_set_fitted HA; eexists; reflexivity.
Qed.


Lemma mfit_set_fitted n d1 d2 (m : manual R d1 d2) st rk tr g
    (enc : 'M[R]_(n, d1)) (dec : 'M[R]_(n, d2)) :
  String.eqb (method m) "absolute" = false ->
  mfit (set_fitted m st rk tr) g enc dec = mfit m g enc dec.
Proof. by move=> Ha; rewrite /manual_fit /= Ha. Qed.

Lemma mfit_state n d1 d2 (m : manual R d1 d2) g
    (enc : 'M[R]_(n, d1)) (dec : 'M[R]_(n, d2)) :
  String.eqb (method m) "absolute" = false ->
  exists st rk tr, (mfit m g enc dec).1.2 = set_fitted m st rk tr.
Proof.
move=> Ha; rewrite /manual_fit Ha.
case: (normalized_anchors sqrt m enc dec) => [[A B] st].
case: ifP => _; first by case: linear_init => w g'; do 3!eexists.
case: ifP => _; first by case: manual_svd_translation => r sg; do 3!eexists.
case: ifP => _; first by do 3!eexists.
case: ifP => _; first by case: svd_rect => [[u s] v]; do 3!eexists.
by do 3!eexists.
Qed.

(** A second [fit] on a [ManualLatentTranslation], on anchors of the same
    widths d1 and d2 as the first, is allowed and overwrites everything the
    first one set: the result is that of a single [fit] on the second data.
    (The attributes [encoding_anchors] / [decoding_anchors] of lines 105-106,
    not modelled, are set by both fits when d1 > d2 and by neither
    otherwise; a refit on other widths is outside this statement.) *)
Theorem manual_refit_overwrites n n' d1 d2 (m : manual R d1 d2) g g'
    (enc : 'M[R]_(n, d1)) (dec : 'M[R]_(n, d2))
    (enc' : 'M[R]_(n', d1)) (dec' : 'M[R]_(n', d2)) :
  mfit (mfit m g enc dec).1.2 g' enc' dec' = mfit m g' enc' dec'.
Proof.
case Ha: (String.eqb (method m) "absolute").
  by rewrite {2}/manual_fit Ha.
have [st [rk [tr ->]]] := mfit_state g enc dec Ha.
exact: mfit_set_fitted.
Qed.

(** [fit] never reads the seed: for every method, changing the seed only
    changes the seed field of the result. *)
Theorem manual_fit_ignores_seed n d1 d2 (m : manual R d1 d2) (sd : nat) g
    (enc : 'M[R]_(n, d1)) (dec : 'M[R]_(n, d2)) :
  mfit (set_seed m sd) g enc dec =
  let '(r, m1, g1) := mfit m g enc dec in (r, set_seed m1 sd, g1).
Proof.
rewrite /manual_fit.
change (method (set_seed m sd)) with (method m).
change (normalized_anchors sqrt (set_seed m sd) enc dec)
  with (normalized_anchors sqrt m enc dec).
destruct (String.eqb (method m) "absolute"); first reflexivity.
destruct (normalized_anchors sqrt m enc dec) as [[A B] st].
destruct (String.eqb (method m) "linear").
  by destruct (linear_init d1 d2 g).
destruct (String.eqb (method m) "svd").
  by destruct (manual_svd_translation _ _).
destruct (String.eqb (method m) "lstsq"); first reflexivity.
destruct (String.eqb (method m) "lstsq+ortho"); last reflexivity.
by destruct (svd_rect (lstsq A B)) as [[u s] v].
Qed.

End ManualExtra.


Lemma manual_transform_after_unsupported_fit_witness :
  let m := new_manual rat 1 1 0 true false false "procrustes" in
  let enc := 1%:M : 'M[rat]_1 in
  method m <> "absolute"%string /\ method m <> "linear"%string /\
  method m <> "svd"%string /\ method m <> "lstsq"%string /\
  method m <> "lstsq+ortho"%string /\
  let '(_, m1, _) :=
    manual_fit rat_sqrt diag_svd_mx (fun d1 d2 _ => (0, 0, 0))
      (fun n d1 d2 _ _ => 0) (fun d1 d2 (g : unit) => (0, 0, g))
      (fun n d1 d2 _ _ w => w) m tt enc enc in
  stats m1 <> None /\ manual_transform rat_sqrt m1 enc = Err NotFitted.
Proof.
move=> m enc.
have H1 : method m <> "absolute"%string by apply/String.eqb_neq; vm_compute.
have H2 : method m <> "linear"%string by apply/String.eqb_neq; vm_compute.
have H3 : method m <> "svd"%string by apply/String.eqb_neq; vm_compute.
have H4 : method m <> "lstsq"%string by apply/String.eqb_neq; vm_compute.
have H5 : method m <> "lstsq+ortho"%string by apply/String.eqb_neq; vm_compute.
split; [exact H1 | split; [exact H2 | split; [exact H3 | split; [exact H4 | split; [exact H5 | ]]]]].
exact (manual_transform_after_unsupported_fit rat_sqrt diag_svd_mx
         (fun d1 d2 _ => (0, 0, 0)) (fun n d1 d2 _ _ => 0)
         (fun d1 d2 (g : unit) => (0, 0, g)) (fun n d1 d2 _ _ w => w)
         tt enc enc enc H1 H2 H3 H4 H5).
Defined.

Lemma manual_svd_transform_reads_top_rows_witness :
  let m := set_fitted (new_manual rat 1 2 0 false false false "svd")
             (unit_stats 1 2) None (Some (SvdMap 1%:M)) in
  let X := 1%:M : 'M[rat]_1 in
  method m <> "absolute"%string /\ stats m = Some (unit_stats 1 2) /\
  translation_of m = Some (SvdMap 1%:M) /\
  target_of (manual_transform rat_sqrt m X) =
    Some (restore m (unit_stats 1 2)
            (pad_to 2 (encode_input rat_sqrt m (unit_stats 1 2) X *m
               \matrix_(i, j) (1%:M : 'M[rat]_(maxn 1 2))
                                (widen_ord (leq_maxl 1 2) i) j))).
Proof.
move=> m X.
have H1 : method m <> "absolute"%string by apply/String.eqb_neq; vm_compute.
have H2 : stats m = Some (unit_stats 1 2) by [].
have H3 : translation_of m = Some (SvdMap 1%:M) by [].
split; [exact H1 | split; [exact H2 | split; [exact H3 |]]].
exact (manual_svd_transform_reads_top_rows rat_sqrt X H1 H2 H3).
Defined.

Lemma manual_transform_affine_witness :
  let m := set_fitted (new_manual rat 2 2 0 true false false "lstsq")
             (unit_stats 2 2) None (Some (LstsqMap 1%:M)) in
  let a := (2%:R)^-1 : rat in
  let X := 1%:M : 'M[rat]_2 in
  let Y := 0 : 'M[rat]_2 in
  method m <> "absolute"%string /\ l2_norm m = false /\
  stats m = Some (unit_stats 2 2) /\
  (forall j, std_encoding_anchors (unit_stats 2 2) ord0 j != 0) /\
  translation_of m = Some (LstsqMap 1%:M) /\
  exists tX tY,
    target_of (manual_transform rat_sqrt m X) = Some tX /\
    target_of (manual_transform rat_sqrt m Y) = Some tY /\
    target_of (manual_transform rat_sqrt m (a *: X + (1 - a) *: Y)) =
      Some (a *: tX + (1 - a) *: tY).
Proof.
move=> m a X Y.
have H1 : method m <> "absolute"%string by apply/String.eqb_neq; vm_compute.
have H2 : l2_norm m = false by [].
have H3 : stats m = Some (unit_stats 2 2) by [].
have Hs : forall j, std_encoding_anchors (unit_stats 2 2) ord0 j != 0.
  by move=> j; rewrite mxE oner_neq0.
have H4 : translation_of m = Some (LstsqMap 1%:M) by [].
split; [exact H1 | split; [exact H2 | split; [exact H3 | split; [exact Hs | split; [exact H4 |]]]]].
exact (manual_transform_affine rat_sqrt a X Y H1 H2 H3 Hs H4).
Defined.

Lemma manual_svd_fit_transform_source_witness :
  let m := new_manual rat 2 3 0 true false false "svd" in
  let enc := 1%:M : 'M[rat]_2 in
  let dec := 0 : 'M[rat]_(2, 3) in
  method m = "svd"%string /\
  let '(_, m1, _) :=
    manual_fit rat_sqrt diag_svd_mx (fun d1 d2 _ => (0, 0, 0))
      (fun n d1 d2 _ _ => 0) (fun d1 d2 (g : unit) => (0, 0, g))
      (fun n d1 d2 _ _ w => w) m tt enc dec in
  exists y, manual_transform rat_sqrt m1 enc =
    Ok (SvdOut (pad_to (maxn 2 3) (normalized_anchors rat_sqrt m enc dec).1.1) y).
Proof.
move=> m enc dec.
have Hm : method m = "svd"%string by [].
split; [exact Hm |].
exact (manual_svd_fit_transform_source rat_sqrt diag_svd_mx
         (fun d1 d2 _ => (0, 0, 0)) (fun n d1 d2 _ _ => 0)
         (fun d1 d2 (g : unit) => (0, 0, g)) (fun n d1 d2 _ _ w => w)
         tt enc dec Hm).
Defined.


(** * The equivalence scenario: reference against translator *)

Section ScenarioFacts.
Variable R : numFieldType.
Variable sqrt : R -> R.

Lemma mx_entry_ord n d (A : 'M[R]_(n, d)) (i : 'I_n) (j : 'I_d) :
  mx_entry A i j = A i j.
Proof. by rewrite /mx_entry !valK. Qed.

Lemma holds_tensor_of_mx n d (A : 'M[R]_(n, d)) : holds (tensor_of_mx A) A.
Proof. by split=> //; split=> // i j; rewrite /= mx_entry_ord. Qed.

Lemma holds_ext n d (x : tensor R) (A B : 'M[R]_(n, d)) :
  holds x A -> (forall i j, A i j = B i j) -> holds x B.
Proof. by case=> H1 [H2 H3] HAB; split=> //; split=> // i j; rewrite H3 HAB. Qed.

Lemma holds_map n d (x : tensor R) (A : 'M[R]_(n, d)) f :
  holds x A -> holds (map_entries x f) (\matrix_(i, j) f (val j) (A i j)).
Proof. by case=> H1 [H2 H3]; split=> //; split=> // i j; rewrite /= H3 mxE. Qed.

Lemma col_mean_holds n d (x : tensor R) (A : 'M[R]_(n, d)) (j : 'I_d) :
  holds x A -> col_mean x j = col_means A ord0 j.
Proof.
case: x => nr nc f [/= -> [_ H]]; rewrite /col_mean /col_means mxE /=.
by congr (_ / _); apply: eq_bigr => i _; rewrite H.
Qed.

Lemma col_std_holds n d (x : tensor R) (A : 'M[R]_(n, d)) (j : 'I_d) :
  holds x A -> col_std sqrt x j = col_stds sqrt A ord0 j.
Proof.
move=> Hx; rewrite /col_std /col_stds mxE (col_mean_holds j Hx).
case: x Hx => nr nc f [/= -> [_ H]].
by congr (sqrt (_ / _)); apply: eq_bigr => i _; rewrite H.
Qed.

Lemma row_norm_holds n d (x : tensor R) (A : 'M[R]_(n, d)) (i : 'I_n) :
  holds x A -> row_norm sqrt x i = row_norm_mx sqrt A i.
Proof.
case: x => nr nc f [/= _ [-> H]]; rewrite /row_norm /row_norm_mx /=.
by congr (sqrt _); apply: eq_bigr => j _; rewrite H.
Qed.

Lemma mean_row_norm_holds n d (x : tensor R) (A : 'M[R]_(n, d)) :
  holds x A -> mean_row_norm sqrt x = mean_norm sqrt A.
Proof.
move=> Hx; rewrite /mean_row_norm /mean_norm.
case: x Hx => nr nc f Hx; case: (Hx) => /= Hn _; subst nr.
by congr (_ / _); apply: eq_bigr => i _; rewrite (row_norm_holds i Hx).
Qed.

Lemma pad_to_id n d (A : 'M[R]_(n, d)) : pad_to d A = A.
Proof. by apply/matrixP => i j; rewrite mxE valK. Qed.


Lemma col_means_center n d (X : 'M[R]_(n, d)) :
  col_means (\matrix_(i, j) (X i j - col_means X ord0 j)) = 0.
Proof.
apply/matrixP => i j; rewrite !mxE.
under eq_bigr => k _ do rewrite mxE.
rewrite sumrB sumr_const card_ord.
case: n X => [|n] X; first by rewrite big_ord0 mulr0n subrr mul0r.
by rewrite [col_means X ord0 j]mxE -mulr_natr divfK ?subrr ?mul0r // pnatr_eq0.
Qed.

Lemma col_stds_center n d (X : 'M[R]_(n, d)) :
  col_stds sqrt (\matrix_(i, j) (X i j - col_means X ord0 j)) = col_stds sqrt X.
Proof.
rewrite /col_stds col_means_center; apply/matrixP => i j; rewrite !mxE.
by congr (sqrt (_ / _)); apply: eq_bigr => k _; rewrite !mxE subr0.
Qed.

Section Steps.
Variables (n d : nat) (x : tensor R) (X : 'M[R]_(n, d)).
Hypothesis Hx : holds x X.

Lemma center_step c :
  (exists x1, t_apply sqrt (t_fit sqrt (Centering c) x) x = Ok x1 /\
     holds x1 (\matrix_(i, j) (X i j - col_means X ord0 j))) /\
  (forall k (y : tensor R) (Y : 'M[R]_(k, d)), holds y Y -> exists z,
     t_reverse (t_fit sqrt (Centering c) x) y = Ok z /\
     holds z (\matrix_(i, j) (Y i j + col_means X ord0 j))).
Proof.
have [Hn [Hc He]] := Hx; split.
  rewrite /= eqxx; eexists; split; first reflexivity.
  by apply: holds_ext (holds_map _ Hx) _ => i j; rewrite mxE (col_mean_holds j Hx) mxE.
move=> k y Y Hy; have [_ [Hcy _]] := Hy.
rewrite /= Hcy Hc eqxx; eexists; split; first reflexivity.
by apply: holds_ext (holds_map _ Hy) _ => i j; rewrite mxE (col_mean_holds j Hx) mxE.
Qed.

Hypothesis Hs : forall j, col_stds sqrt X ord0 j != 0.

Lemma fitted_std (j : 'I_d) :
  (if col_std sqrt x j == 0 then 1 else col_std sqrt x j) = col_stds sqrt X ord0 j.
Proof. by rewrite (col_std_holds j Hx) (negbTE (Hs j)). Qed.

Lemma std_step c :
  (exists x1, t_apply sqrt (t_fit sqrt (STDScaling c) x) x = Ok x1 /\
     holds x1 (\matrix_(i, j) (X i j / col_stds sqrt X ord0 j))) /\
  (forall k (y : tensor R) (Y : 'M[R]_(k, d)), holds y Y -> exists z,
     t_reverse (t_fit sqrt (STDScaling c) x) y = Ok z /\
     holds z (\matrix_(i, j) (Y i j * col_stds sqrt X ord0 j))).
Proof.
have [Hn [Hc He]] := Hx; split.
  rewrite /= eqxx; eexists; split; first reflexivity.
  by apply: holds_ext (holds_map _ Hx) _ => i j; rewrite mxE fitted_std mxE.
move=> k y Y Hy; have [_ [Hcy _]] := Hy.
rewrite /= Hcy Hc eqxx; eexists; split; first reflexivity.
by apply: holds_ext (holds_map _ Hy) _ => i j; rewrite mxE fitted_std mxE.
Qed.

Lemma standard_step c :
  (exists x1, t_apply sqrt (t_fit sqrt (StandardScaling c) x) x = Ok x1 /\
     holds x1 (standardize X (col_means X) (col_stds sqrt X))) /\
  (forall k (y : tensor R) (Y : 'M[R]_(k, d)), holds y Y -> exists z,
     t_reverse (t_fit sqrt (StandardScaling c) x) y = Ok z /\
     holds z (\matrix_(i, j) (Y i j * col_stds sqrt X ord0 j +
                                col_means X ord0 j))).
Proof.
have [Hn [Hc He]] := Hx; split.
  rewrite /= eqxx; eexists; split; first reflexivity.
  apply: holds_ext (holds_map _ Hx) _ => i j.
  by rewrite mxE fitted_std (col_mean_holds j Hx) /standardize mxE.
move=> k y Y Hy; have [_ [Hcy _]] := Hy.
rewrite /= Hcy Hc eqxx; eexists; split; first reflexivity.
apply: holds_ext (holds_map _ Hy) _ => i j.
by rewrite mxE fitted_std (col_mean_holds j Hx) mxE.
Qed.

End Steps.

Section L2Step.
Variables (n d : nat) (x : tensor R) (X : 'M[R]_(n, d)).
Hypothesis Hx : holds x X.
Hypothesis Hn : forall i, (10%:R ^+ 12)^-1 <= row_norm_mx sqrt X i.

Lemma l2_step c :
  (exists x1, t_apply sqrt (t_fit sqrt (L2 c) x) x = Ok x1 /\
     holds x1 (normalize_rows sqrt X)) /\
  (forall k (y : tensor R) (Y : 'M[R]_(k, d)), holds y Y -> exists z,
     t_reverse (t_fit sqrt (L2 c) x) y = Ok z /\
     holds z (\matrix_(i, j) (Y i j * mean_norm sqrt X))).
Proof.
have [Hr [Hc He]] := Hx; split.
  eexists; split; first reflexivity.
  split=> //; split=> // i j; rewrite /= He mxE (row_norm_holds i Hx).
  by rewrite (Order.POrderTheory.max_l (Hn i)).
move=> k y Y Hy; eexists; split; first reflexivity.
by apply: holds_ext (holds_map _ Hy) _ => i j; rewrite mxE (mean_row_norm_holds Hx) mxE.
Qed.

End L2Step.


Lemma fit_chain_apply (ts ts' : seq (transform R)) x y :
  fit_chain sqrt ts x = (ts', Ok y) -> apply_chain sqrt ts' x = Ok y.
Proof.
elim: ts ts' x => [|t ts IH] ts' x /=; first by case=> <- ->.
case Ha: (t_apply sqrt (t_fit sqrt t x) x) => [x1|e] //.
case Hf: (fit_chain sqrt ts x1) => [ts'' r] [<- Hr]; subst r.
by rewrite /= Ha (IH _ _ Hf).
Qed.

Lemma chain_nil n d (x : tensor R) (X : 'M[R]_(n, d)) :
  holds x X ->
  exists ts' x', fit_chain sqrt [::] x = (ts', Ok x') /\ holds x' X /\
    forall k y (Y : 'M[R]_(k, d)), holds y Y ->
      exists z, reverse_loop (rev ts') y = Ok z /\ holds z Y.
Proof. by move=> Hx; exists [::], x; split; [|split=> // k y Y Hy; exists y]. Qed.

Lemma chain_cons (t : transform R) ts n d (x : tensor R) (X1 Xn : 'M[R]_(n, d))
    (f g : forall k, 'M[R]_(k, d) -> 'M[R]_(k, d)) :
  (exists x1, t_apply sqrt (t_fit sqrt t x) x = Ok x1 /\ holds x1 X1) /\
  (forall k y (Y : 'M[R]_(k, d)), holds y Y ->
     exists z, t_reverse (t_fit sqrt t x) y = Ok z /\ holds z (f k Y)) ->
  (forall x1, holds x1 X1 ->
     exists ts' x', fit_chain sqrt ts x1 = (ts', Ok x') /\ holds x' Xn /\
       forall k y (Y : 'M[R]_(k, d)), holds y Y ->
         exists z, reverse_loop (rev ts') y = Ok z /\ holds z (g k Y)) ->
  exists ts' x', fit_chain sqrt (t :: ts) x = (ts', Ok x') /\ holds x' Xn /\
    forall k y (Y : 'M[R]_(k, d)), holds y Y ->
      exists z, reverse_loop (rev ts') y = Ok z /\ holds z (f k (g k Y)).
Proof.
move=> [[x1 [H1 Hx1]] Hr] Hts.
have [ts' [x' [Hf [Hx' Hrev]]]] := Hts x1 Hx1.
exists (t_fit sqrt t x :: ts'), x'; split; first by rewrite /= H1 Hf.
split=> // k y Y Hy.
have [z1 [Hz1 Hh1]] := Hrev k y Y Hy.
have [z [Hz Hh]] := Hr k z1 (g k Y) Hh1.
by exists z; rewrite rev_cons reverse_loop_rcons Hz1.
Qed.

Lemma standardize_center n d (X : 'M[R]_(n, d)) :
  standardize X (col_means X) (const_mx 1) =
  \matrix_(i, j) (X i j - col_means X ord0 j).
Proof. by apply/matrixP => i j; rewrite !mxE divr1. Qed.

Lemma standardize_id n d (X : 'M[R]_(n, d)) :
  standardize X 0 (const_mx 1) = X.
Proof. by apply/matrixP => i j; rewrite !mxE subr0 divr1. Qed.

Lemma chain_weaken ts n d (x : tensor R) (Xn Xn' : 'M[R]_(n, d))
    (h h' : forall k, 'M[R]_(k, d) -> 'M[R]_(k, d)) :
  (forall i j, Xn i j = Xn' i j) ->
  (forall k (Y : 'M[R]_(k, d)) i j, h k Y i j = h' k Y i j) ->
  (exists ts' x', fit_chain sqrt ts x = (ts', Ok x') /\ holds x' Xn /\
    forall k y (Y : 'M[R]_(k, d)), holds y Y ->
      exists z, reverse_loop (rev ts') y = Ok z /\ holds z (h k Y)) ->
  exists ts' x', fit_chain sqrt ts x = (ts', Ok x') /\ holds x' Xn' /\
    forall k y (Y : 'M[R]_(k, d)), holds y Y ->
      exists z, reverse_loop (rev ts') y = Ok z /\ holds z (h' k Y).
Proof.
move=> HX Hh [ts' [x' [Hf [Hx' Hr]]]]; exists ts', x'; split=> //.
split; first exact: holds_ext Hx' HX.
move=> k y Y Hy; have [z [Hz Hhz]] := Hr k y Y Hy.
by exists z; split=> //; apply: holds_ext Hhz (Hh k Y).
Qed.

Lemma chain_spec (p : eq_method) n d (x : tensor R) (X : 'M[R]_(n, d)) :
  holds x X ->
  std_nonzero sqrt (manual_of R p d) X ->
  norms_above_eps sqrt (manual_of R p d) X ->
  exists ts' x', fit_chain sqrt (transforms_of R p) x = (ts', Ok x') /\
    holds x' (normalized_anchors sqrt (manual_of R p d) X X).1.1 /\
    forall k y (Y : 'M[R]_(k, d)), holds y Y ->
      exists z, reverse_loop (rev ts') y = Ok z /\
        holds z (restore (manual_of R p d)
                   (normalized_anchors sqrt (manual_of R p d) X X).2 Y).
Proof.
move=> Hx Hs Hn.
case: p Hs Hn => Hs Hn;
  cbv zeta iota beta delta [normalized_anchors manual_of new_manual centering
                            std_correction l2_norm].
- (* CenterSTD *)
  have Hs' : forall j, col_stds sqrt (\matrix_(i, j) (X i j - col_means X ord0 j))
                         ord0 j != 0 by move=> j; rewrite col_stds_center; exact: Hs.
  have H := chain_cons (center_step Hx None) (fun x1 Hx1 =>
    chain_cons (std_step Hx1 Hs' None) (fun x2 Hx2 => chain_nil Hx2)).
  apply: chain_weaken H => [i j|k Y i j]; first by rewrite col_stds_center !mxE.
  by rewrite col_stds_center /restore !mxE.
- (* Standard *)
  have H := chain_cons (standard_step Hx (Hs isT) None) (fun x1 Hx1 => chain_nil Hx1).
  by apply: chain_weaken H => [i j|k Y i j]; rewrite /restore !mxE.
- (* CenterL2 *)
  have Hn' : forall i, (10%:R ^+ 12)^-1 <=
      row_norm_mx sqrt (\matrix_(i, j) (X i j - col_means X ord0 j)) i.
    by move=> i; rewrite -standardize_center; exact: Hn isT i.
  have H := chain_cons (center_step Hx None) (fun x1 Hx1 =>
    chain_cons (l2_step Hx1 Hn' None) (fun x2 Hx2 => chain_nil Hx2)).
  apply: chain_weaken H => [i j|k Y i j]; first by rewrite standardize_center.
  by rewrite standardize_center /restore !mxE mulr1 mulrC.
- (* OnlyL2 *)
  have Hn' : forall i, (10%:R ^+ 12)^-1 <= row_norm_mx sqrt X i.
    by move=> i; rewrite -[X in row_norm_mx _ X]standardize_id; exact: Hn isT i.
  have H := chain_cons (l2_step Hx Hn' None) (fun x1 Hx1 => chain_nil Hx1).
  apply: chain_weaken H => [i j|k Y i j]; first by rewrite standardize_id.
  by rewrite standardize_id /restore !mxE mulr1 addr0 mulrC.
- (* OnlyCenter *)
  have H := chain_cons (center_step Hx None) (fun x1 Hx1 => chain_nil Hx1).
  by apply: chain_weaken H => [i j|k Y i j]; rewrite /restore !mxE ?divr1 ?mulr1.
Qed.

Lemma svd_est_fit_holds svd (e : option (tensor R)) n d (x y : tensor R)
    (X Y : 'M[R]_(n, d)) :
  holds x X -> holds y Y ->
  exists r rk, svd_est_fit (svd_entries svd) e x y = Ok (Some r, rk) /\
    holds r (manual_svd_translation svd X Y).1.
Proof.
case: x => nx cx fx [/= -> [-> Hx]]; case: y => ny cy fy [/= -> [-> Hy]].
rewrite /svd_est_fit /= !eqxx /= /svd_entries.
have -> : \matrix_(i, j) (\sum_(k < n) fy k j * fx k i : R) = (Y^T *m X)^T.
  by apply/matrixP => i j; rewrite !mxE; apply: eq_bigr => k _; rewrite !mxE Hx Hy.
rewrite /manual_svd_translation.
case: (svd d ((Y^T *m X)^T)) => [[u s] v] /=; do 2 eexists; split; first reflexivity.
split=> //; split=> // i j /=; rewrite !mxE; apply: eq_bigr => k _.
by rewrite !mx_entry_ord mxE.
Qed.

Lemma svd_est_apply_holds n d (r x : tensor R) (R0 : 'M[R]_d) (X : 'M[R]_(n, d)) :
  holds r R0 -> holds x X ->
  exists z, svd_est_apply (Some r) x = Ok z /\ holds z (X *m R0).
Proof.
move=> [Hnr [Hcr Hr]] [Hnx [Hcx Hx]].
rewrite /svd_est_apply Hnr Hcx eqxx; eexists; split; first reflexivity.
split=> //; split=> // i j; rewrite /= mxE Hcx; apply: eq_bigr => k _.
by rewrite Hx Hr.
Qed.

Lemma pad_svd_transport svd n d k (e : k = d) (X Y : 'M[R]_(n, d)) r sg :
  manual_svd_translation svd (pad_to k X) (pad_to k Y) = (r, sg) ->
  pad_to d (pad_to k X *m r) = X *m (manual_svd_translation svd X Y).1.
Proof. by subst k; rewrite !pad_to_id => ->. Qed.

End ScenarioFacts.

Section Equivalence.
Variable R : numFieldType.
Variable sqrt : R -> R.
Variable svd : forall d, 'M[R]_d -> 'M[R]_d * 'rV[R]_d * 'M[R]_d.
Variable svd_rect : forall d1 d2,
  'M[R]_(d1, d2) ->
  'M[R]_(d1, minn d1 d2) * 'rV[R]_(minn d1 d2) * 'M[R]_(d2, minn d1 d2).
Variable lstsq : forall n d1 d2,
  'M[R]_(n, d1) -> 'M[R]_(n, d2) -> 'M[R]_(d1, d2).
Variable G : Type.
Variable linear_init : forall d1 d2, G -> ('M[R]_(d2, d1) * 'rV[R]_d2) * G.
Variable adam_train : forall n d1 d2,
  'M[R]_(n, d1) -> 'M[R]_(n, d2) ->
  'M[R]_(d2, d1) * 'rV[R]_d2 -> 'M[R]_(d2, d1) * 'rV[R]_d2.
Variable seed_everything : nat -> G.

Local Notation mfit :=
  (manual_fit sqrt svd svd_rect lstsq linear_init adam_train).

Lemma manual_svd_target n d (m : manual R d d) g (A B : 'M[R]_(n, d)) :
  method m = "svd"%string ->
  let '(r1, m1, _) := mfit m g A B in
  is_ok r1 /\
  target_of (manual_transform sqrt m1 A) =
    Some (restore m (normalized_anchors sqrt m A B).2
            ((normalized_anchors sqrt m A B).1.1 *m
             (manual_svd_translation svd (normalized_anchors sqrt m A B).1.1
                (normalized_anchors sqrt m A B).1.2).1)).
Proof.
move=> Hm.
case HN: (normalized_anchors sqrt m A B) => [[An Bn] st].
have [HA _] := normalized_anchors_encode HN.
rewrite /manual_fit Hm HN /=.
case E: (manual_svd_translation _ _ _) => [r sg] /=; split=> //.
rewrite /manual_transform Hm /= encode_input_set_fitted HA.
by rewrite (pad_svd_transport (maxnn d) E).
Qed.

(** C1. For each of the five parameter combinations of [eq_methods]
    (lines 158-237), fitting the reference [ManualLatentTranslation]
    (seed 0, method "svd") and the [LatentTranslator] (random_seed 0,
    SVDEstimator, the listed transform chain on both sides) on the same
    pair of equal-width batches A, B, then transforming A (lines 238-254):
    both fits succeed, and the "target" of [manual.transform(A)] and the
    "target" of [translator(A)] have the same shape and the same entries.
    Both pipelines call the same torch.svd. Exact arithmetic stands for
    torch.allclose; the anchors are those on which torch divides as the
    exact model does: nonzero per-column stds with std correction, row
    norms of at least F.normalize's eps with L2 normalisation. *)
Theorem manual_translation_matches_translator (p : eq_method) n d
    (A B : 'M[R]_(n, d)) g g' :
  std_nonzero sqrt (manual_of R p d) A -> std_nonzero sqrt (manual_of R p d) B ->
  norms_above_eps sqrt (manual_of R p d) A ->
  norms_above_eps sqrt (manual_of R p d) B ->
  let '(r1, m1, _) := mfit (manual_of R p d) g A B in
  let '(r2, t1, _) := fit sqrt seed_everything
                        (svd_estimator_fit (svd_entries svd)) (translator_of R p)
                        g' (tensor_of_mx A) (tensor_of_mx B) in
  is_ok r1 /\ is_ok r2 /\
  exists y z, target_of (manual_transform sqrt m1 A) = Some y /\
    forward sqrt (@svd_est_apply R) t1 (tensor_of_mx A) = Ok z /\ holds z.2 y.
Proof.
move=> HsA HsB HnA HnB.
have Hm : method (manual_of R p d) = "svd"%string by case: p {HsA HsB HnA HnB}.
have [tsA [xA [HfA [HxA _]]]] := chain_spec (holds_tensor_of_mx A) HsA HnA.
have [tsB [xB [HfB [HxB HrB]]]] := chain_spec (holds_tensor_of_mx B) HsB HnB.
have [r [rk [HE Hr]]] := svd_est_fit_holds svd None HxA HxB.
have [zz [HZ Hzz]] := svd_est_apply_holds Hr HxA.
have [z [Hz Hzh]] := HrB _ _ _ Hzz.
case: (mfit (manual_of R p d) g A B) (manual_svd_target g A B Hm) => [[r1 m1] g1] [Hr1 HM].
rewrite /fit /= ltnn HfA HfB /estimate /= HE /forward (fit_chain_apply HfA) HZ Hz.
split=> //; split=> //; do 2 eexists; split; first exact: HM.
by split; first reflexivity.
Qed.

End Equivalence.



(** * Concrete runs of the equivalence scenario *)

Lemma rat_sqrt_gt0 (x : rat) : 0 <= x -> 0 < rat_sqrt x.
Proof.
move=> Hx; rewrite /rat_sqrt; elim: 8%N => [|k IH] //=.
rewrite divr_gt0 ?ltr0n //; apply: (Order.POrderTheory.lt_le_trans IH).
by rewrite lerDl divr_ge0 // Order.POrderTheory.ltW.
Qed.

Lemma col_stds_rat_neq0 n d (X : 'M[rat]_(n, d)) j :
  col_stds rat_sqrt X ord0 j != 0.
Proof.
rewrite mxE; apply: lt0r_neq0; apply: rat_sqrt_gt0.
by rewrite divr_ge0 ?ler0n // sumr_ge0 // => i _; rewrite sqr_ge0.
Qed.

Lemma manual_translation_matches_translator_witness :
  std_nonzero rat_sqrt (manual_of rat CenterSTD 2) (1%:M : 'M[rat]_2) /\
  std_nonzero rat_sqrt (manual_of rat CenterSTD 2) (2%:M : 'M[rat]_2) /\
  norms_above_eps rat_sqrt (manual_of rat CenterSTD 2) (1%:M : 'M[rat]_2) /\
  norms_above_eps rat_sqrt (manual_of rat CenterSTD 2) (2%:M : 'M[rat]_2) /\
  let '(r1, m1, _) :=
    manual_fit rat_sqrt diag_svd_mx (fun d1 d2 _ => (0, 0, 0))
      (fun n d1 d2 (_ : 'M[rat]_(n, d1)) (_ : 'M[rat]_(n, d2)) => 0)
      (fun d1 d2 (g : unit) => (0, 0, g)) (fun n d1 d2 _ _ w => w)
      (manual_of rat CenterSTD 2) tt (1%:M : 'M[rat]_2) (2%:M : 'M[rat]_2) in
  let '(r2, t1, _) :=
    fit rat_sqrt (fun _ : nat => tt) (svd_estimator_fit (svd_entries diag_svd_mx))
      (translator_of rat CenterSTD) tt (tensor_of_mx (1%:M : 'M[rat]_2))
      (tensor_of_mx (2%:M : 'M[rat]_2)) in
  is_ok r1 /\ is_ok r2 /\
  exists y z, target_of (manual_transform rat_sqrt m1 (1%:M : 'M[rat]_2)) = Some y /\
    forward rat_sqrt (@svd_est_apply rat) t1 (tensor_of_mx (1%:M : 'M[rat]_2)) = Ok z /\
    holds z.2 y.
Proof.
have H1 : std_nonzero rat_sqrt (manual_of rat CenterSTD 2) (1%:M : 'M[rat]_2).
  by move=> _ j; exact: col_stds_rat_neq0.
have H2 : std_nonzero rat_sqrt (manual_of rat CenterSTD 2) (2%:M : 'M[rat]_2).
  by move=> _ j; exact: col_stds_rat_neq0.
have H3 : norms_above_eps rat_sqrt (manual_of rat CenterSTD 2) (1%:M : 'M[rat]_2).
  by move=> Hl; discriminate Hl.
have H4 : norms_above_eps rat_sqrt (manual_of rat CenterSTD 2) (2%:M : 'M[rat]_2).
  by move=> Hl; discriminate Hl.
split; [exact H1 | split; [exact H2 | split; [exact H3 | split; [exact H4 |]]]].
exact (manual_translation_matches_translator diag_svd_mx (fun d1 d2 _ => (0, 0, 0))
         (fun n d1 d2 (_ : 'M[rat]_(n, d1)) (_ : 'M[rat]_(n, d2)) => 0)
         (fun d1 d2 (g : unit) => (0, 0, g)) (fun n d1 d2 _ _ w => w)
         (fun _ : nat => tt) tt tt H1 H2 H3 H4).
Defined.
